(** * Translation routing and caching engine of [app.py]

    A shallow embedding of [detect_lang], [translate_text_process] and the
    module-level dictionary [translation_cache], followed by the properties
    of the router: language resolution, routing, composition through
    zh-CN, memoisation and the invariants of the cache. *)

From Equations Require Import Equations.
From stdpp Require Import gmap list strings pretty.
From Stdlib Require Import NArith Lia.

Set Default Proof Using "Type".

(** ** Python strings

    A Python 3 [str] is a sequence of Unicode code points.  Texts and
    language tags are both [str] in the source, so both are lists of code
    points here; [lit] turns an ASCII literal of the source into one. *)

Abbreviation str := (list N).

Definition lit (s : string) : str :=
  (λ a, Ascii.N_of_ascii a) <$> String.list_ascii_of_string s.

(** The chained comparison of the one-character string [c] with the
    literals U+4E00 and U+9FFF compares code points. *)
Definition is_cjk (c : N) : bool :=
  (0x4e00 <=? c)%N && (c <=? 0x9fff)%N.

(** [sum(p(c) for c in text)]: booleans are summed as 0 and 1. *)
Definition py_sum (p : N → bool) (text : str) : nat :=
  sum_list ((λ c, Nat.b2n (p c)) <$> text).

(** ** The cache and the instrumented state *)

(** [key = (text, src, tgt)] *)
Abbreviation key := (str * str * str)%type.

Definition key_text (k : key) : str := k.1.1.
Definition key_src (k : key) : str := k.1.2.
Definition key_tgt (k : key) : str := k.2.

(** The four backing capabilities: the two Marian models and the two
    OpenCC converters. *)
Inductive capability : Type :=
  | ModelEnZh
  | ModelZhEn
  | ConvS2T
  | ConvT2S.

(** What a call does besides returning: membership tests on the cache,
    assignments into it, and capability invocations, in program order. *)
Inductive event : Type :=
  | Lookup (k : key)
  | Store (k : key) (v : str)
  | Invoke (c : capability) (input : str).

Record state : Type := mkState {
  translation_cache : gmap key str;
  trace : list event
}.

(** [translation_cache = {}] at import time. *)
Definition init_state : state := mkState ∅ [].

Definition log (e : event) (σ : state) : state :=
  mkState (translation_cache σ) (trace σ ++ [e]).

(** [translation_cache[key] = result] *)
Definition store (k : key) (v : str) (σ : state) : state :=
  mkState (<[k := v]> (translation_cache σ)) (trace σ ++ [Store k v]).

Definition is_invoke (e : event) : bool :=
  match e with Invoke _ _ => true | _ => false end.

(** The capability invocations recorded in a state. *)
Definition invocations (σ : state) : list event :=
  List.filter is_invoke (trace σ).

(** ** The external world of the router

    [str.isalpha] comes from the Unicode database of the Python runtime;
    the tokenizers, models and converters are loaded at import time.  None
    of them is code of the repository: they are the members of an
    interface, deterministic as functions of their input. *)

Class Backend : Type := {
  isalpha : N → bool;
  tensor : Type;
  token_en_zh : str → tensor;
  model_en_zh_generate : tensor → tensor;
  token_en_zh_batch_decode : tensor → str;
  token_zh_en : str → tensor;
  model_zh_en_generate : tensor → tensor;
  token_zh_en_batch_decode : tensor → str;
  converter_s2t_convert : str → str;
  converter_t2s_convert : str → str
}.

(** Two backends to run the router on.  In both, the alphabetic characters
    are the ASCII letters and the CJK unified ideographs.  The first marks
    the output of each capability with a character of its own; in the
    second the models and the traditional-to-simplified converter answer
    with the empty string. *)

Definition isalpha_sample (c : N) : bool :=
  ((0x41 <=? c)%N && (c <=? 0x5a)%N)
  || ((0x61 <=? c)%N && (c <=? 0x7a)%N)
  || is_cjk c.

Definition marking_backend : Backend := {|
  isalpha := isalpha_sample;
  tensor := str;
  token_en_zh := λ t, t;
  model_en_zh_generate := λ t, 0x4e2d%N :: t;
  token_en_zh_batch_decode := λ t, t;
  token_zh_en := λ t, t;
  model_zh_en_generate := λ t, 0x45%N :: t;
  token_zh_en_batch_decode := λ t, t;
  converter_s2t_convert := λ t, 0x7e41%N :: t;
  converter_t2s_convert := λ t, 0x7b80%N :: t
|}.

Definition silent_backend : Backend := {|
  isalpha := isalpha_sample;
  tensor := str;
  token_en_zh := λ t, t;
  model_en_zh_generate := λ _, [];
  token_en_zh_batch_decode := λ t, t;
  token_zh_en := λ t, t;
  model_zh_en_generate := λ _, [];
  token_zh_en_batch_decode := λ t, t;
  converter_s2t_convert := λ t, 0x7e41%N :: t;
  converter_t2s_convert := λ _, []
|}.

(** The six pairs tested by the [elif] chain. *)
Definition routed_pairs : list (str * str) :=
  [ (lit "en", lit "zh-CN"); (lit "zh-CN", lit "en");
    (lit "zh-CN", lit "zh-TW"); (lit "zh-TW", lit "zh-CN");
    (lit "en", lit "zh-TW"); (lit "zh-TW", lit "en") ].

(** The two composed pairs, each with the capability of its first and of
    its second hop. *)
Definition composed_rows : list (str * str * capability * capability) :=
  [ (lit "en", lit "zh-TW", ModelEnZh, ConvS2T);
    (lit "zh-TW", lit "en", ConvT2S, ModelZhEn) ].

Section Router.
Context {B : Backend}.

Definition detect_lang (text : str) : str :=
  let zh := py_sum is_cjk text in
  let en := py_sum isalpha text in
  if (en <? zh)%nat then lit "zh-CN" else lit "en".

(** [if src == "auto": src = detect_lang(text)] *)
Definition resolve_src (text src : str) : str :=
  if decide (src = lit "auto") then detect_lang text else src.

(** The two branches of the [elif] chain that call the router again. *)
Definition composed (src tgt : str) : bool :=
  bool_decide (src = lit "en" ∧ tgt = lit "zh-TW")
  || bool_decide (src = lit "zh-TW" ∧ tgt = lit "en").

(** Depth of the calls a request still makes below itself. *)
Definition hops (text src tgt : str) : nat :=
  if composed (resolve_src text src) tgt then 1 else 0.

(** The router.  A state goes in and comes out: the dictionary is a
    module-level global that every call reads and writes.  The recursive
    calls of the two composed branches are on pairs that are not composed,
    which is what the measure says. *)
Equations? translate_text_process (text src tgt : str) (σ : state)
  : str * state by wf (hops text src tgt) lt :=
translate_text_process text src tgt σ :=
  if decide (text = []) then ([], σ)
  else
    let src' := resolve_src text src in
    let key := (text, src', tgt) in
    match translation_cache σ !! key with
    | Some v => (v, log (Lookup key) σ)
    | None =>
      let σ0 := log (Lookup key) σ in
      let '(result, σ1) :=
        if decide (src' = lit "en" ∧ tgt = lit "zh-CN") then
          (token_en_zh_batch_decode (model_en_zh_generate (token_en_zh text)),
           log (Invoke ModelEnZh text) σ0)
        else if decide (src' = lit "zh-CN" ∧ tgt = lit "en") then
          (token_zh_en_batch_decode (model_zh_en_generate (token_zh_en text)),
           log (Invoke ModelZhEn text) σ0)
        else if decide (src' = lit "zh-CN" ∧ tgt = lit "zh-TW") then
          (converter_s2t_convert text, log (Invoke ConvS2T text) σ0)
        else if decide (src' = lit "zh-TW" ∧ tgt = lit "zh-CN") then
          (converter_t2s_convert text, log (Invoke ConvT2S text) σ0)
        else
          match decide (src' = lit "en" ∧ tgt = lit "zh-TW") with
          | left Hpair =>
            let '(mid, σm) :=
              translate_text_process text (lit "en") (lit "zh-CN") σ0 in
            translate_text_process mid (lit "zh-CN") (lit "zh-TW") σm
          | right _ =>
            match decide (src' = lit "zh-TW" ∧ tgt = lit "en") with
            | left Hpair =>
              let '(mid, σm) :=
                translate_text_process text (lit "zh-TW") (lit "zh-CN") σ0 in
              translate_text_process mid (lit "zh-CN") (lit "en") σm
            | right _ => (text, σ0)
            end
          end
      in
      (result, store key result σ1)
    end.
Proof.
  all: subst src'; destruct Hpair as [Hsrc ->].
  all: unfold hops; rewrite Hsrc; vm_compute; lia.
Qed.

(** ** The routing table read off the [elif] chain *)

Inductive route : Type :=
  | Direct (c : capability)
  | Via (mid : str)
  | Passthrough.

Definition dispatch (src tgt : str) : route :=
  if decide (src = lit "en" ∧ tgt = lit "zh-CN") then Direct ModelEnZh
  else if decide (src = lit "zh-CN" ∧ tgt = lit "en") then Direct ModelZhEn
  else if decide (src = lit "zh-CN" ∧ tgt = lit "zh-TW") then Direct ConvS2T
  else if decide (src = lit "zh-TW" ∧ tgt = lit "zh-CN") then Direct ConvT2S
  else if decide (src = lit "en" ∧ tgt = lit "zh-TW") then Via (lit "zh-CN")
  else if decide (src = lit "zh-TW" ∧ tgt = lit "en") then Via (lit "zh-CN")
  else Passthrough.

(** The string a capability returns for an input. *)
Definition run_capability (c : capability) (text : str) : str :=
  match c with
  | ModelEnZh =>
      token_en_zh_batch_decode (model_en_zh_generate (token_en_zh text))
  | ModelZhEn =>
      token_zh_en_batch_decode (model_zh_en_generate (token_zh_en text))
  | ConvS2T => converter_s2t_convert text
  | ConvT2S => converter_t2s_convert text
  end.

(** ** Big-step reading of a call

    [call text src tgt σ r σ'] : the call on state [σ] returns [r] and
    leaves the state [σ'].  One rule per path through the function. *)

Inductive call : str → str → str → state → str → state → Prop :=
  | call_empty src tgt σ :
      call [] src tgt σ [] σ
  | call_hit text src tgt σ v :
      text ≠ [] →
      translation_cache σ !! (text, resolve_src text src, tgt) = Some v →
      call text src tgt σ v (log (Lookup (text, resolve_src text src, tgt)) σ)
  | call_direct text src tgt σ c :
      let k := (text, resolve_src text src, tgt) in
      text ≠ [] →
      translation_cache σ !! k = None →
      dispatch (resolve_src text src) tgt = Direct c →
      call text src tgt σ (run_capability c text)
        (store k (run_capability c text) (log (Invoke c text) (log (Lookup k) σ)))
  | call_via text src tgt σ m mid σm r σ1 :
      let k := (text, resolve_src text src, tgt) in
      text ≠ [] →
      translation_cache σ !! k = None →
      dispatch (resolve_src text src) tgt = Via m →
      call text (resolve_src text src) m (log (Lookup k) σ) mid σm →
      call mid m tgt σm r σ1 →
      call text src tgt σ r (store k r σ1)
  | call_pass text src tgt σ :
      let k := (text, resolve_src text src, tgt) in
      text ≠ [] →
      translation_cache σ !! k = None →
      dispatch (resolve_src text src) tgt = Passthrough →
      call text src tgt σ text (store k text (log (Lookup k) σ)).

(** ** States reached by running the router

    Nothing else in the program writes to [translation_cache]: every
    state of a running process is the initial one followed by calls. *)

Inductive reachable : state → Prop :=
  | reachable_init : reachable init_state
  | reachable_call text src tgt σ :
      reachable σ →
      reachable (translate_text_process text src tgt σ).2.

(** ** What a request is worth, as a function of the capabilities

    [hop_value] is the worth of a request whose pair is not a composed
    one, [routed_value] that of any request with a resolved source and
    a nonempty text. *)

Definition hop_value (text src tgt : str) : str :=
  if decide (text = []) then []
  else match dispatch src tgt with
       | Direct c => run_capability c text
       | _ => text
       end.

Definition routed_value (text src tgt : str) : str :=
  match dispatch src tgt with
  | Direct c => run_capability c text
  | Via m => hop_value (hop_value text src m) m tgt
  | Passthrough => text
  end.

(** Every entry has a nonempty text, a resolved source, and the value
    the capabilities give to its key. *)
Definition coherent (σ : state) : Prop :=
  ∀ k v, translation_cache σ !! k = Some v →
    key_text k ≠ [] ∧ key_src k ≠ lit "auto"
    ∧ v = routed_value (key_text k) (key_src k) (key_tgt k).

(** A composed entry comes with the entries of its hops. *)
Definition hop_closed (σ : state) : Prop :=
  ∀ text src tgt v m,
    translation_cache σ !! (text, src, tgt) = Some v →
    dispatch src tgt = Via m →
    ∃ mid, translation_cache σ !! (text, src, m) = Some mid
           ∧ (mid ≠ [] → translation_cache σ !! (mid, m, tgt) = Some v).

(** * Proofs *)

(** Closes a goal whose context holds a false comparison of literals, or
    the negation of a true one. *)
Ltac literal_clash :=
  exfalso;
  match goal with
  | H : ¬ ?P |- _ =>
      apply H; apply (bool_decide_eq_true_1 P); vm_compute; reflexivity
  | H : ?P |- _ =>
      revert H; apply (bool_decide_eq_false_1 P); vm_compute; reflexivity
  end.

(** ** The function follows the rules, and nothing else does *)

Lemma translate_text_process_call (text src tgt : str) (σ : state) :
  call text src tgt σ (translate_text_process text src tgt σ).1
                      (translate_text_process text src tgt σ).2.
Proof.
  funelim (translate_text_process text src tgt σ). clear Heqcall.
  rename H into IH1, H0 into IH2, H1 into IH3, H2 into IH4.
  destruct (decide (text = [])) as [->|Hne]; [constructor|].
  destruct (translation_cache σ !! _) as [v|] eqn:Hk; [by constructor|].
  repeat case_decide.
  1-4: cbn [fst snd];
       match goal with
       | |- call _ _ _ _ _ (store _ _ (log (Invoke ?c _) _)) =>
           apply (call_direct text src tgt σ c); [done|done|]
       end;
       unfold dispatch; repeat case_decide; done.
  - specialize (IH1 Hne ltac:(done) ltac:(done) ltac:(done) ltac:(done) ltac:(done)).
    specialize (IH2 Hne ltac:(done) ltac:(done) ltac:(done) ltac:(done) ltac:(done)).
    destruct (translate_text_process text (lit "en") _ _) as [mid σm].
    specialize (IH2 mid σm).
    destruct (translate_text_process mid _ _ _) as [r σ1].
    cbn [fst snd] in *. eapply (call_via _ _ _ _ (lit "zh-CN")); [done|done| | |].
    + unfold dispatch; repeat case_decide; done.
    + match goal with H : _ ∧ _ |- _ => destruct H as [Hs Ht] end.
      by rewrite Hs in *.
    + match goal with H : _ ∧ _ |- _ => destruct H as [Hs Ht] end.
      by rewrite Ht in *.
  - specialize (IH3 Hne ltac:(done) ltac:(done) ltac:(done) ltac:(done) ltac:(done) ltac:(done)).
    specialize (IH4 Hne ltac:(done) ltac:(done) ltac:(done) ltac:(done) ltac:(done) ltac:(done)).
    destruct (translate_text_process text (lit "zh-TW") _ _) as [mid σm].
    specialize (IH4 mid σm).
    destruct (translate_text_process mid _ _ _) as [r σ1].
    cbn [fst snd] in *. eapply (call_via _ _ _ _ (lit "zh-CN")); [done|done| | |].
    + unfold dispatch; repeat case_decide; done.
    + match goal with H : _ ∧ _ |- _ => destruct H as [Hs Ht] end.
      by rewrite Hs in *.
    + match goal with H : _ ∧ _ |- _ => destruct H as [Hs Ht] end.
      by rewrite Ht in *.
  - cbn [fst snd]. eapply call_pass; [done|done|].
    unfold dispatch; repeat case_decide; done.
Qed.

Lemma dispatch_via_inv (src tgt m : str) :
  dispatch src tgt = Via m →
  m = lit "zh-CN"
  ∧ ((src = lit "en" ∧ tgt = lit "zh-TW") ∨ (src = lit "zh-TW" ∧ tgt = lit "en")).
Proof.
  unfold dispatch. repeat case_decide; intros Hd; simplify_eq; auto.
Qed.

(** The relation has no other outcome than the function's. *)
Lemma call_fun (text src tgt : str) (σ : state) (r : str) (σ' : state) :
  call text src tgt σ r σ' → translate_text_process text src tgt σ = (r, σ').
Proof.
  induction 1 as [src tgt σ|text src tgt σ v Hne Hk|text src tgt σ c k Hne Hk Hd
                 |text src tgt σ m mid σm r σ1 k Hne Hk Hd Hc1 IH1 Hc2 IH2
                 |text src tgt σ k Hne Hk Hd];
    rewrite translate_text_process_equation_1.
  - done.
  - rewrite decide_False by done. cbn zeta. by rewrite Hk.
  - rewrite decide_False by done. cbn zeta. fold k. rewrite Hk.
    revert Hd. unfold dispatch.
    repeat case_decide; intros Hd; try congruence.
    all: injection Hd as <-; reflexivity.
  - rewrite decide_False by done. cbn zeta. fold k. rewrite Hk.
    destruct (dispatch_via_inv _ _ _ Hd) as [-> [[Hs ->]|[Hs ->]]];
      rewrite Hs in *; repeat case_decide; try literal_clash.
    all: by rewrite IH1, IH2.
  - rewrite decide_False by done. cbn zeta. fold k. rewrite Hk.
    revert Hd. unfold dispatch.
    repeat case_decide; intros Hd; try congruence.
Qed.

(** ** The function along each of its paths *)

Lemma translate_empty (src tgt : str) (σ : state) :
  translate_text_process [] src tgt σ = ([], σ).
Proof. apply call_fun. constructor. Qed.

Lemma translate_hit (text src tgt : str) (σ : state) (v : str) :
  let k := (text, resolve_src text src, tgt) in
  text ≠ [] → translation_cache σ !! k = Some v →
  translate_text_process text src tgt σ = (v, log (Lookup k) σ).
Proof. intros k Hne Hk. apply call_fun. by constructor. Qed.

Lemma translate_direct (text src tgt : str) (σ : state) (c : capability) :
  let k := (text, resolve_src text src, tgt) in
  text ≠ [] → translation_cache σ !! k = None →
  dispatch (resolve_src text src) tgt = Direct c →
  translate_text_process text src tgt σ
  = (run_capability c text,
     store k (run_capability c text) (log (Invoke c text) (log (Lookup k) σ))).
Proof. intros k Hne Hk Hd. apply call_fun. by constructor. Qed.

Lemma translate_via (text src tgt : str) (σ : state) (m : str) :
  let k := (text, resolve_src text src, tgt) in
  text ≠ [] → translation_cache σ !! k = None →
  dispatch (resolve_src text src) tgt = Via m →
  translate_text_process text src tgt σ
  = (let '(mid, σm) :=
       translate_text_process text (resolve_src text src) m (log (Lookup k) σ) in
     let '(r, σ1) := translate_text_process mid m tgt σm in
     (r, store k r σ1)).
Proof.
  intros k Hne Hk Hd.
  pose proof (translate_text_process_call text (resolve_src text src) m
                (log (Lookup k) σ)) as H1.
  destruct (translate_text_process text (resolve_src text src) m _) as [mid σm].
  pose proof (translate_text_process_call mid m tgt σm) as H2.
  destruct (translate_text_process mid m tgt σm) as [r σ1].
  apply call_fun. by eapply call_via.
Qed.

Lemma translate_pass (text src tgt : str) (σ : state) :
  let k := (text, resolve_src text src, tgt) in
  text ≠ [] → translation_cache σ !! k = None →
  dispatch (resolve_src text src) tgt = Passthrough →
  translate_text_process text src tgt σ = (text, store k text (log (Lookup k) σ)).
Proof. intros k Hne Hk Hd. apply call_fun. by constructor. Qed.

(** ** The resolver *)

Lemma detect_lang_cases (text : str) :
  detect_lang text = lit "zh-CN" ∨ detect_lang text = lit "en".
Proof. unfold detect_lang. case (_ <? _)%nat; auto. Qed.

Lemma resolve_src_not_auto (text src : str) :
  resolve_src text src ≠ lit "auto".
Proof.
  unfold resolve_src. case_decide; [|done].
  destruct (detect_lang_cases text) as [-> | ->]; discriminate.
Qed.

Lemma resolve_src_id (text src : str) :
  src ≠ lit "auto" → resolve_src text src = src.
Proof. intros Hs. unfold resolve_src. by rewrite decide_False. Qed.

(** ** The table *)

Lemma dispatch_via_hop (src tgt m : str) :
  dispatch src tgt = Via m →
  src ≠ lit "auto" ∧ m ≠ lit "auto"
  ∧ (∃ c, dispatch src m = Direct c) ∧ (∃ c, dispatch m tgt = Direct c).
Proof.
  intros Hd. apply dispatch_via_inv in Hd as [-> [[-> ->]|[-> ->]]].
  all: split; [discriminate|]; split; [discriminate|].
  all: split; eexists; reflexivity.
Qed.

Lemma routed_value_hop (text src tgt : str) (c : capability) :
  text ≠ [] → dispatch src tgt = Direct c →
  routed_value text src tgt = hop_value text src tgt.
Proof.
  intros Hne Hd. unfold routed_value, hop_value.
  by rewrite Hd, decide_False.
Qed.

(** ** Coherence is kept by every call *)

Lemma coherent_init : coherent init_state.
Proof. intros k v Hk. cbn in Hk. by rewrite lookup_empty in Hk. Qed.

Lemma coherent_log (e : event) (σ : state) : coherent σ → coherent (log e σ).
Proof. done. Qed.

Lemma coherent_store (text src tgt v : str) (σ : state) :
  coherent σ → text ≠ [] → src ≠ lit "auto" →
  v = routed_value text src tgt →
  coherent (store (text, src, tgt) v σ).
Proof.
  intros Hc Hne Hs Hv k w. cbn. rewrite lookup_insert.
  case_decide as Hk; [|by apply Hc].
  intros [= <-]. by subst k.
Qed.

Lemma call_coherent (text src tgt : str) (σ : state) (r : str) (σ' : state) :
  call text src tgt σ r σ' →
  coherent σ →
  coherent σ'
  ∧ r = if decide (text = []) then []
        else routed_value text (resolve_src text src) tgt.
Proof.
  induction 1 as [src tgt σ|text src tgt σ v Hne Hk|text src tgt σ c k Hne Hk Hd
                 |text src tgt σ m mid σm r σ1 k Hne Hk Hd Hc1 IH1 Hc2 IH2
                 |text src tgt σ k Hne Hk Hd]; intros Hc.
  - done.
  - split; [done|]. rewrite decide_False by done.
    by destruct (Hc _ _ Hk) as (_ & _ & ->).
  - rewrite decide_False by done.
    assert (run_capability c text = routed_value text (resolve_src text src) tgt) as Hv.
    { unfold routed_value. by rewrite Hd. }
    split; [|done].
    apply coherent_store; auto using coherent_log, resolve_src_not_auto.
  - rewrite decide_False by done.
    destruct (dispatch_via_hop _ _ _ Hd) as (Hs & Hm & [c1 Hd1] & [c2 Hd2]).
    destruct (IH1 (coherent_log _ _ Hc)) as [Hcm Hmid].
    destruct (IH2 Hcm) as [Hc1' Hr].
    rewrite decide_False, (resolve_src_id text _ Hs) in Hmid by done.
    rewrite (resolve_src_id mid m Hm) in Hr.
    rewrite (routed_value_hop text _ m c1) in Hmid by done.
    assert (r = routed_value text (resolve_src text src) tgt) as Hv.
    { unfold routed_value. rewrite Hd, <- Hmid, Hr.
      case_decide as He.
      - unfold hop_value. by rewrite decide_True.
      - by rewrite (routed_value_hop _ _ _ c2). }
    rewrite Hv. split; [|done].
    apply coherent_store; auto using resolve_src_not_auto.
  - rewrite decide_False by done.
    assert (text = routed_value text (resolve_src text src) tgt) as Hv.
    { unfold routed_value. by rewrite Hd. }
    split; [|done].
    apply coherent_store; auto using coherent_log, resolve_src_not_auto.
Qed.

Lemma reachable_coherent (σ : state) : reachable σ → coherent σ.
Proof.
  induction 1 as [|text src tgt σ _ IH]; [apply coherent_init|].
  by apply (call_coherent _ _ _ _ _ _ (translate_text_process_call text src tgt σ)).
Qed.

(** ** Frame: entries are only added *)

Lemma call_cache_mono (text src tgt : str) (σ : state) (r : str) (σ' : state) :
  call text src tgt σ r σ' →
  ∀ k v, translation_cache σ !! k = Some v → translation_cache σ' !! k = Some v.
Proof.
  induction 1 as [src tgt σ|text src tgt σ v Hne Hk|text src tgt σ c k Hne Hk Hd
                 |text src tgt σ m mid σm r σ1 k Hne Hk Hd Hc1 IH1 Hc2 IH2
                 |text src tgt σ k Hne Hk Hd]; intros k' w Hk'; try done.
  - cbn. rewrite lookup_insert_ne; [done|]. intros <-. congruence.
  - cbn. rewrite lookup_insert_ne; [by apply IH2, IH1|].
    intros <-. congruence.
  - cbn. rewrite lookup_insert_ne; [done|]. intros <-. congruence.
Qed.

(** The result of a call on a nonempty text is in the cache afterwards. *)
Lemma call_cached (text src tgt : str) (σ : state) (r : str) (σ' : state) :
  call text src tgt σ r σ' → text ≠ [] →
  translation_cache σ' !! (text, resolve_src text src, tgt) = Some r.
Proof.
  destruct 1; intros Hne'; try done; cbn; by rewrite lookup_insert_eq.
Qed.

(** ** Events: a call only appends to the trace *)

Lemma call_trace (text src tgt : str) (σ : state) (r : str) (σ' : state) :
  call text src tgt σ r σ' → ∃ evs, trace σ' = trace σ ++ evs.
Proof.
  induction 1 as [src tgt σ|text src tgt σ v Hne Hk|text src tgt σ c k Hne Hk Hd
                 |text src tgt σ m mid σm r σ1 k Hne Hk Hd Hc1 IH1 Hc2 IH2
                 |text src tgt σ k Hne Hk Hd]; cbn.
  - exists []. by rewrite app_nil_r.
  - by eexists.
  - eexists. by rewrite <- !app_assoc.
  - destruct IH1 as [e1 E1], IH2 as [e2 E2]. cbn in E1.
    eexists. by rewrite E2, E1, <- !app_assoc.
  - eexists. by rewrite <- !app_assoc.
Qed.

(** ** Composed entries and the entries of their hops *)

Lemma hop_closed_init : hop_closed init_state.
Proof. intros text src tgt v m Hk. cbn in Hk. by rewrite lookup_empty in Hk. Qed.

Lemma hop_closed_store_flat (text src tgt v : str) (σ : state) :
  hop_closed σ →
  translation_cache σ !! (text, src, tgt) = None →
  (∀ m, dispatch src tgt ≠ Via m) →
  hop_closed (store (text, src, tgt) v σ).
Proof.
  intros Hh Hk Hd text' src' tgt' w m. cbn. rewrite lookup_insert.
  case_decide as He.
  - intros _ Hv. simplify_eq. by destruct (Hd m).
  - intros Hw Hv. destruct (Hh _ _ _ _ _ Hw Hv) as (mid & H1 & H2).
    exists mid. split.
    + rewrite lookup_insert_ne; [done|]. intros Heq. rewrite Heq, H1 in Hk. done.
    + intros Hmid. rewrite lookup_insert_ne; [by apply H2|].
      intros Heq. rewrite Heq, (H2 Hmid) in Hk. done.
Qed.

Lemma store_keeps (text src tgt v : str) (σ : state) :
  coherent σ → v = routed_value text src tgt →
  ∀ k w, translation_cache σ !! k = Some w →
         translation_cache (store (text, src, tgt) v σ) !! k = Some w.
Proof.
  intros Hc -> k w Hk. cbn. rewrite lookup_insert. case_decide as He; [|done].
  subst k. by destruct (Hc _ _ Hk) as (_ & _ & ->).
Qed.

Lemma call_hop_closed (text src tgt : str) (σ : state) (r : str) (σ' : state) :
  call text src tgt σ r σ' → coherent σ → hop_closed σ → hop_closed σ'.
Proof.
  induction 1 as [src tgt σ|text src tgt σ v Hne Hk|text src tgt σ c k Hne Hk Hd
                 |text src tgt σ m mid σm r σ1 k Hne Hk Hd Hc1 IH1 Hc2 IH2
                 |text src tgt σ k Hne Hk Hd]; intros Hc Hh; try done.
  - apply hop_closed_store_flat; [done|done|]. intros m. by rewrite Hd.
  - pose proof (call_via _ _ _ _ _ _ _ _ _ Hne Hk Hd Hc1 Hc2) as Hcall.
    destruct (call_coherent _ _ _ _ _ _ Hcall Hc) as [_ Hr].
    rewrite decide_False in Hr by done.
    destruct (call_coherent _ _ _ _ _ _ Hc1 (coherent_log _ _ Hc)) as [Hcm _].
    destruct (call_coherent _ _ _ _ _ _ Hc2 Hcm) as [Hc1' _].
    specialize (IH2 Hcm (IH1 (coherent_log _ _ Hc) Hh)).
    destruct (dispatch_via_hop _ _ _ Hd) as (Hs & Hm & [c1 Hd1] & [c2 Hd2]).
    pose proof (call_cached _ _ _ _ _ _ Hc1 Hne) as Hmid.
    rewrite (resolve_src_id text _ Hs) in Hmid.
    pose proof (call_cache_mono _ _ _ _ _ _ Hc2 _ _ Hmid) as Hmid1.
    assert (mid ≠ [] → translation_cache σ1 !! (mid, m, tgt) = Some r) as Hhop2.
    { intros Hmne. pose proof (call_cached _ _ _ _ _ _ Hc2 Hmne) as Hr2.
      by rewrite (resolve_src_id mid _ Hm) in Hr2. }
    pose proof (store_keeps text (resolve_src text src) tgt r σ1 Hc1' Hr) as Hkeep.
    intros text' src' tgt' w m'. cbn. rewrite lookup_insert.
    case_decide as He.
    + intros Hw Hv. simplify_eq. rewrite Hd in Hv. injection Hv as <-.
      exists mid. split; [by apply Hkeep|].
      intros Hmne. by apply Hkeep, Hhop2.
    + intros Hw Hv. destruct (IH2 _ _ _ _ _ Hw Hv) as (mid' & H1 & H2).
      exists mid'. split; [by apply Hkeep|]. intros Hmne. by apply Hkeep, H2.
  - apply hop_closed_store_flat; [done|done|]. intros m. by rewrite Hd.
Qed.

Lemma reachable_hop_closed (σ : state) : reachable σ → hop_closed σ.
Proof.
  induction 1 as [|text src tgt σ Hr IH]; [apply hop_closed_init|].
  eapply call_hop_closed;
    eauto using translate_text_process_call, reachable_coherent.
Qed.

(** ** Counting with [sum] *)

Lemma py_sum_filter (p : N → bool) (P : N → Prop) `{!∀ c, Decision (P c)}
    (text : str) :
  (∀ c, p c = true ↔ P c) → py_sum p text = length (filter P text).
Proof.
  intros Hp. unfold py_sum. induction text as [|c text IH]; [done|].
  cbn [fmap list_fmap sum_list sum_list_with]. rewrite filter_cons.
  destruct (decide (P c)) as [Hc|Hc].
  - apply Hp in Hc. rewrite Hc. cbn. by f_equal.
  - destruct (p c) eqn:Hpc; [by apply Hp in Hpc|]. done.
Qed.

Lemma is_cjk_range (c : N) : is_cjk c = true ↔ (0x4e00 ≤ c ≤ 0x9fff)%N.
Proof. unfold is_cjk. rewrite andb_true_iff, !N.leb_le. done. Qed.

Lemma py_sum_le (p q : N → bool) (text : str) :
  (∀ c, p c = true → q c = true) → py_sum p text ≤ py_sum q text.
Proof.
  intros Hpq. unfold py_sum. induction text as [|c text IH]; [done|].
  cbn [fmap list_fmap sum_list sum_list_with].
  destruct (p c) eqn:Hp; [rewrite (Hpq _ Hp)|]; cbn; lia.
Qed.

Lemma resolve_src_idemp (text src : str) :
  resolve_src text (resolve_src text src) = resolve_src text src.
Proof. apply resolve_src_id, resolve_src_not_auto. Qed.

(** A call with a source and the call with the resolved source are the
    same call. *)
Lemma translate_resolve (text src tgt : str) (σ : state) :
  translate_text_process text src tgt σ
  = translate_text_process text (resolve_src text src) tgt σ.
Proof.
  rewrite (translate_text_process_equation_1 text src),
          (translate_text_process_equation_1 text (resolve_src text src)).
  by rewrite resolve_src_idemp.
Qed.

(** * The properties of the router *)

(** C3.  [detect_lang] compares the number of characters in U+4E00..U+9FFF
    with the number of alphabetic characters: it answers "zh-CN" exactly
    when the first count is strictly greater and "en" otherwise.  The empty
    string gives "en", and no input gives "auto" or "zh-TW". *)
Theorem detect_lang_counts (text : str) :
  let zhCount := length (filter (λ c, (0x4e00 ≤ c ≤ 0x9fff)%N) text) in
  let alphaCount := length (filter (λ c, isalpha c = true) text) in
  (detect_lang text = lit "zh-CN" ↔ alphaCount < zhCount)
  ∧ (detect_lang text = lit "en" ↔ ¬ alphaCount < zhCount)
  ∧ detect_lang [] = lit "en"
  ∧ (detect_lang text = lit "zh-CN" ∨ detect_lang text = lit "en")
  ∧ detect_lang text ≠ lit "auto"
  ∧ detect_lang text ≠ lit "zh-TW".
Proof.
  intros zhCount alphaCount. unfold detect_lang.
  rewrite (py_sum_filter is_cjk _ text is_cjk_range).
  rewrite (py_sum_filter isalpha (λ c, isalpha c = true) text) by done.
  fold zhCount alphaCount.
  destruct (Nat.ltb_spec alphaCount zhCount) as [Hlt|Hge].
  - repeat split; try done; try (left; done); intros; lia.
  - repeat split; try done; try (right; done); intros; lia.
Qed.

(** C9.  Where every character of U+4E00..U+9FFF is alphabetic for
    [str.isalpha], [detect_lang] answers "en" on every string, and a call
    with source "auto" is the call with source "en". *)
Theorem detect_lang_always_en (text : str) :
  (∀ c, (0x4e00 ≤ c ≤ 0x9fff)%N → isalpha c = true) →
  detect_lang text = lit "en"
  ∧ ∀ tgt σ, translate_text_process text (lit "auto") tgt σ
             = translate_text_process text (lit "en") tgt σ.
Proof.
  intros Halpha.
  assert (∀ t, detect_lang t = lit "en") as Hen.
  { intros t. unfold detect_lang.
    pose proof (py_sum_le is_cjk isalpha t) as Hle.
    destruct (Nat.ltb_spec (py_sum isalpha t) (py_sum is_cjk t)) as [Hlt|]; [|done].
    exfalso. apply (Nat.lt_irrefl (py_sum is_cjk t)).
    eapply Nat.le_lt_trans; [apply Hle|exact Hlt].
    intros c Hc. by apply Halpha, is_cjk_range. }
  split; [apply Hen|]. intros tgt σ.
  rewrite (translate_resolve text (lit "auto")), (translate_resolve text (lit "en")).
  unfold resolve_src. rewrite decide_True by done. rewrite Hen.
  by rewrite decide_False by discriminate.
Qed.

(** C2.  On the two ideographs U+4F60 U+597D, both alphabetic, the two
    counts are equal, so the source "auto" becomes "en": the request is
    the pair ("en", "en"), the text comes back unchanged and is stored
    under that pair.  "hello" has no ideograph and resolves to "en". *)
Theorem auto_on_ideographs_resolves_en :
  let ni_hao := [0x4f60; 0x597d]%N in
  let k := (ni_hao, lit "en", lit "en") in
  isalpha 0x4f60%N = true → isalpha 0x597d%N = true →
  detect_lang ni_hao = lit "en"
  ∧ translate_text_process ni_hao (lit "auto") (lit "en") init_state
    = (ni_hao, store k ni_hao (log (Lookup k) init_state))
  ∧ detect_lang (lit "hello") = lit "en".
Proof.
  intros ni_hao k H1 H2.
  assert (detect_lang ni_hao = lit "en") as Hen.
  { unfold detect_lang, py_sum, ni_hao. cbn [fmap list_fmap]. by rewrite H1, H2. }
  split; [done|]. split.
  - assert (resolve_src ni_hao (lit "auto") = lit "en") as Hr.
    { unfold resolve_src. by rewrite decide_True. }
    rewrite translate_pass; rewrite ?Hr; done.
  - unfold detect_lang.
    replace (py_sum is_cjk (lit "hello")) with 0 by reflexivity.
    by destruct (py_sum isalpha _).
Qed.

(** C4.  On the empty text the router returns the empty string and leaves
    the state as it was: the cache is unchanged and the trace has no new
    lookup, store or invocation. *)
Theorem empty_text_leaves_state (src tgt : str) (σ : state) :
  translate_text_process [] src tgt σ = ([], σ)
  ∧ translation_cache (translate_text_process [] src tgt σ).2
    = translation_cache σ
  ∧ trace (translate_text_process [] src tgt σ).2 = trace σ.
Proof. by rewrite translate_empty. Qed.

(** ** Pairs outside the table *)

Lemma unrouted_dispatch (src tgt : str) :
  (src, tgt) ∉ routed_pairs → dispatch src tgt = Passthrough.
Proof.
  intros Hout. unfold dispatch. repeat case_decide; try done.
  all: exfalso; apply Hout.
  all: match goal with H : _ ∧ _ |- _ => destruct H as [-> ->] end.
  all: unfold routed_pairs; repeat constructor.
Qed.

Lemma same_pair_unrouted (L : str) : (L, L) ∉ routed_pairs.
Proof.
  unfold routed_pairs. intros Hin.
  repeat (apply elem_of_cons in Hin as [Hin|Hin]);
    [..|by apply elem_of_nil in Hin].
  all: injection Hin as -> Hin; vm_compute in Hin; discriminate Hin.
Qed.

Lemma auto_target_unrouted (src : str) : (src, lit "auto") ∉ routed_pairs.
Proof.
  unfold routed_pairs. intros Hin.
  repeat (apply elem_of_cons in Hin as [Hin|Hin]);
    [..|by apply elem_of_nil in Hin].
  all: injection Hin as _ Hin; vm_compute in Hin; discriminate Hin.
Qed.

(** ** Invocations are untouched by lookups and stores *)

Lemma invocations_log_lookup (k : key) (σ : state) :
  invocations (log (Lookup k) σ) = invocations σ.
Proof. unfold invocations. cbn. rewrite List.filter_app. cbn. apply app_nil_r. Qed.

Lemma invocations_store (k : key) (v : str) (σ : state) :
  invocations (store k v σ) = invocations σ.
Proof. unfold invocations. cbn. rewrite List.filter_app. cbn. apply app_nil_r. Qed.

(** What a call returns, in a coherent state. *)
Lemma translate_value (text src tgt : str) (σ : state) :
  coherent σ → text ≠ [] →
  (translate_text_process text src tgt σ).1
  = routed_value text (resolve_src text src) tgt.
Proof.
  intros Hc Hne.
  destruct (call_coherent _ _ _ _ _ _ (translate_text_process_call text src tgt σ) Hc)
    as [_ Hr].
  by rewrite decide_False in Hr.
Qed.

Lemma translate_cached (text src tgt : str) (σ : state) :
  text ≠ [] →
  translation_cache (translate_text_process text src tgt σ).2
    !! (text, resolve_src text src, tgt)
  = Some (translate_text_process text src tgt σ).1.
Proof.
  intros Hne.
  by apply (call_cached _ _ _ _ _ _ (translate_text_process_call text src tgt σ)).
Qed.

(** C5.  In a state reached by running the router, a nonempty text whose
    resolved pair is none of the six routed pairs comes back unchanged,
    with no capability invoked, and is in the cache under the key made of
    the text, the resolved source and the target.  Equal source and target
    are such a pair whatever the tag, and so is ("fr", "de"). *)
Theorem unrouted_pair_passes_through (text src tgt L : str) (σ : state) :
  reachable σ → text ≠ [] →
  ((resolve_src text src, tgt) ∉ routed_pairs →
     (translate_text_process text src tgt σ).1 = text
     ∧ translation_cache (translate_text_process text src tgt σ).2
         !! (text, resolve_src text src, tgt) = Some text
     ∧ invocations (translate_text_process text src tgt σ).2 = invocations σ)
  ∧ (translate_text_process text L L σ).1 = text
  ∧ (translate_text_process text (lit "fr") (lit "de") σ).1 = text.
Proof.
  intros Hreach Hne.
  pose proof (reachable_coherent _ Hreach) as Hc.
  assert (∀ s t, (resolve_src text s, t) ∉ routed_pairs →
            (translate_text_process text s t σ).1 = text) as Hval.
  { intros s t Hout. rewrite translate_value by done.
    unfold routed_value. by rewrite unrouted_dispatch. }
  split; [|split].
  - intros Hout. split; [by apply Hval|]. split.
    + by rewrite translate_cached, Hval.
    + destruct (translation_cache σ !! (text, resolve_src text src, tgt))
        as [v|] eqn:Hk.
      * rewrite (translate_hit _ _ _ _ v) by done. apply invocations_log_lookup.
      * rewrite translate_pass by auto using unrouted_dispatch. cbn [snd].
        by rewrite invocations_store, invocations_log_lookup.
  - apply Hval. unfold resolve_src. case_decide as HL.
    + subst L. apply auto_target_unrouted.
    + apply same_pair_unrouted.
  - apply Hval. rewrite resolve_src_id by discriminate.
    unfold routed_pairs. intros Hin.
    repeat (apply elem_of_cons in Hin as [Hin|Hin]);
      [..|by apply elem_of_nil in Hin].
    all: vm_compute in Hin; discriminate Hin.
Qed.

(** C6.  Of two calls in a row with the same arguments, the second
    returns the string the first returned, invokes no capability and
    leaves the cache as the first left it. *)
Theorem second_call_is_a_cache_hit (text src tgt : str) (σ : state) :
  let '(r1, σ1) := translate_text_process text src tgt σ in
  let '(r2, σ2) := translate_text_process text src tgt σ1 in
  r2 = r1
  ∧ invocations σ2 = invocations σ1
  ∧ translation_cache σ2 = translation_cache σ1.
Proof.
  destruct (decide (text = [])) as [->|Hne].
  - rewrite (translate_empty src tgt σ). cbn iota.
    by rewrite (translate_empty src tgt σ).
  - pose proof (translate_cached text src tgt σ Hne) as Hk.
    destruct (translate_text_process text src tgt σ) as [r1 σ1]. cbn [fst snd] in Hk.
    rewrite (translate_hit _ _ _ _ r1) by done.
    split; [done|]. split; [apply invocations_log_lookup|done].
Qed.

(** C8.  A key bound in the cache before a call is bound to the same value
    after it: calls only add entries. *)
Theorem cached_entries_never_change (text src tgt : str) (σ : state)
    (k : key) (v : str) :
  translation_cache σ !! k = Some v →
  translation_cache (translate_text_process text src tgt σ).2 !! k = Some v.
Proof.
  apply (call_cache_mono _ _ _ _ _ _ (translate_text_process_call text src tgt σ)).
Qed.

(** ** The events of a call on a nonempty text *)

Lemma call_events (text src tgt : str) (σ : state) (r : str) (σ' : state) :
  call text src tgt σ r σ' → text ≠ [] →
  let k := (text, resolve_src text src, tgt) in
  ∃ evs, trace σ' = trace σ ++ Lookup k :: evs
         ∧ (translation_cache σ !! k = None → ∃ evs', evs = evs' ++ [Store k r]).
Proof.
  destruct 1 as [src tgt σ|text src tgt σ v Hne Hk|text src tgt σ c k Hne Hk Hd
                |text src tgt σ m mid σm r σ1 k Hne Hk Hd Hc1 Hc2
                |text src tgt σ k Hne Hk Hd]; intros Hne' k'; try done.
  - exists []. split; [done|]. intros Hnone. subst k'. congruence.
  - exists [Invoke c text; Store k (run_capability c text)]. cbn.
    split; [by rewrite <- !app_assoc|]. intros _. by exists [Invoke c text].
  - destruct (call_trace _ _ _ _ _ _ Hc1) as [e1 E1].
    destruct (call_trace _ _ _ _ _ _ Hc2) as [e2 E2]. cbn in E1.
    exists ((e1 ++ e2) ++ [Store k r]). cbn. split.
    + by rewrite E2, E1, <- !app_assoc.
    + intros _. by exists (e1 ++ e2).
  - exists [Store k text]. cbn. split; [by rewrite <- !app_assoc|].
    intros _. by exists [].
Qed.

(** C7, as the code has it.  In a state reached by running the router no
    key has "auto" as its source; a call with source "auto" on a nonempty
    text does its lookup, and on a miss its store, under the tag that
    [detect_lang] gives, and its result is in the cache under that tag
    afterwards.  The target is kept as the caller gave it. *)
Theorem auto_never_a_cached_source (σ : state) :
  reachable σ →
  (∀ k v, translation_cache σ !! k = Some v → key_src k ≠ lit "auto")
  ∧ (∀ text tgt, text ≠ [] →
       let k := (text, detect_lang text, tgt) in
       let '(r, σ') := translate_text_process text (lit "auto") tgt σ in
       translation_cache σ' !! k = Some r
       ∧ ∃ evs, trace σ' = trace σ ++ Lookup k :: evs
                ∧ (translation_cache σ !! k = None →
                   ∃ evs', evs = evs' ++ [Store k r])).
Proof.
  intros Hreach. split.
  - intros k v Hk. by destruct (reachable_coherent _ Hreach _ _ Hk) as (_ & ? & _).
  - intros text tgt Hne k.
    assert (resolve_src text (lit "auto") = detect_lang text) as Hr.
    { unfold resolve_src. by rewrite decide_True. }
    pose proof (translate_cached text (lit "auto") tgt σ Hne) as Hc.
    pose proof (call_events _ _ _ _ _ _
                  (translate_text_process_call text (lit "auto") tgt σ) Hne) as He.
    rewrite Hr in Hc, He.
    by destruct (translate_text_process text (lit "auto") tgt σ) as [r σ'].
Qed.

(** ** A composed request and its two hops *)

Lemma via_call (text src tgt m : str) (c1 c2 : capability) (σ : state) :
  dispatch src tgt = Via m →
  dispatch src m = Direct c1 →
  dispatch m tgt = Direct c2 →
  src ≠ lit "auto" → m ≠ lit "auto" →
  reachable σ → text ≠ [] →
  let k := (text, src, tgt) in
  let mid := run_capability c1 text in
  let r := if decide (mid = []) then [] else run_capability c2 mid in
  let '(r', σ') := translate_text_process text src tgt σ in
  r' = r
  ∧ (translation_cache σ !! k = None →
       let '(m1, σm) := translate_text_process text src m (log (Lookup k) σ) in
       let '(r2, σ1) := translate_text_process m1 m tgt σm in
       m1 = mid ∧ r2 = r ∧ σ' = store k r σ1
       ∧ (is_Some (translation_cache σ !! (text, src, m)) →
          invocations σm = invocations σ)
       ∧ (is_Some (translation_cache σm !! (mid, m, tgt)) →
          invocations σ1 = invocations σm))
  ∧ translation_cache σ' !! k = Some r
  ∧ translation_cache σ' !! (text, src, m) = Some mid
  ∧ (mid ≠ [] → translation_cache σ' !! (mid, m, tgt) = Some r).
Proof.
  intros Hd Hd1 Hd2 Hs Hm Hreach Hne k mid r.
  pose proof (reachable_coherent _ Hreach) as Hc.
  assert (∀ t, t ≠ [] → routed_value t src m = run_capability c1 t) as Hv1.
  { intros t Ht. unfold routed_value. by rewrite Hd1. }
  assert (∀ t, t ≠ [] → routed_value t m tgt = run_capability c2 t) as Hv2.
  { intros t Ht. unfold routed_value. by rewrite Hd2. }
  assert (routed_value text src tgt = r) as Hv.
  { unfold routed_value. rewrite Hd. unfold hop_value at 2.
    rewrite decide_False, Hd1 by done. fold mid. unfold hop_value.
    rewrite Hd2. done. }
  pose proof (translate_value text src tgt σ Hc Hne) as Hr'.
  pose proof (translate_cached text src tgt σ Hne) as Hk'.
  rewrite (resolve_src_id text src Hs) in Hr', Hk'. rewrite Hv in Hr'.
  pose proof (reachable_call text src tgt σ Hreach) as Hreach'.
  pose proof (reachable_coherent _ Hreach') as Hc'.
  pose proof (reachable_hop_closed _ Hreach') as Hh'.
  pose proof (λ Hmiss, translate_via text src tgt σ m Hne Hmiss) as Hvia.
  rewrite (resolve_src_id text src Hs) in Hvia. fold k in Hvia.
  destruct (translate_text_process text src tgt σ) as [r' σ'].
  cbn [fst snd] in *. subst r'.
  destruct (Hh' _ _ _ _ _ Hk' Hd) as (mid' & Hmid' & Hhop2).
  assert (mid' = mid) as ->.
  { destruct (Hc' _ _ Hmid') as (_ & _ & ->). by apply Hv1. }
  split; [done|]. split; [|by auto].
  intros Hmiss. specialize (Hvia Hmiss Hd).
  pose proof (coherent_log (Lookup k) σ Hc) as Hc0.
  pose proof (translate_value text src m (log (Lookup k) σ) Hc0 Hne) as Hm1.
  rewrite (resolve_src_id text src Hs), Hv1 in Hm1 by done. fold mid in Hm1.
  destruct (call_coherent _ _ _ _ _ _
              (translate_text_process_call text src m (log (Lookup k) σ)) Hc0)
    as [Hcm _].
  assert (∀ v, translation_cache σ !! (text, src, m) = Some v →
            translate_text_process text src m (log (Lookup k) σ)
            = (v, log (Lookup (text, src, m)) (log (Lookup k) σ))) as Hhit1.
  { intros v Hv'. rewrite (translate_hit _ _ _ _ v); rewrite ?resolve_src_id; done. }
  destruct (translate_text_process text src m (log (Lookup k) σ)) as [m1 σm].
  cbn [fst snd] in *. subst m1.
  assert ((translate_text_process mid m tgt σm).1 = r) as Hr2.
  { subst r. case_decide as He.
    - by rewrite He, translate_empty.
    - rewrite translate_value, resolve_src_id by done. by apply Hv2. }
  assert (∀ v, translation_cache σm !! (mid, m, tgt) = Some v →
            translate_text_process mid m tgt σm
            = (v, log (Lookup (mid, m, tgt)) σm)) as Hhit2.
  { intros v Hv'. destruct (Hcm _ _ Hv') as (Hmne & _ & _).
    rewrite (translate_hit _ _ _ _ v); rewrite ?resolve_src_id; done. }
  destruct (translate_text_process mid m tgt σm) as [r2 σ1].
  cbn [fst snd] in *. subst r2.
  injection Hvia as ->.
  split; [done|]. split; [done|]. split; [done|]. split.
  - intros [v Hv']. specialize (Hhit1 v Hv'). injection Hhit1 as _ ->.
    by rewrite !invocations_log_lookup.
  - intros [v Hv']. specialize (Hhit2 v Hv'). injection Hhit2 as _ ->.
    by rewrite invocations_log_lookup.
Qed.

(** C1, as the code has it.  For each of the two composed pairs, in a
    state reached by running the router and on a nonempty text: the call
    returns what the second capability makes of the output of the first,
    or the empty string when that output is empty; when the request is
    not in the cache the call is the lookup, the first hop as a call of
    its own, the second hop as a call on what the first returned, and the
    store; a hop already in the cache invokes nothing; and afterwards the
    cache holds the request and each hop on a nonempty text. *)
Theorem composition_through_zh_CN (src tgt : str) (c1 c2 : capability)
    (text : str) (σ : state) :
  (src, tgt, c1, c2) ∈ composed_rows →
  reachable σ → text ≠ [] →
  let zh := lit "zh-CN" in
  let k := (text, src, tgt) in
  let mid := run_capability c1 text in
  let r := if decide (mid = []) then [] else run_capability c2 mid in
  let '(r', σ') := translate_text_process text src tgt σ in
  r' = r
  ∧ (translation_cache σ !! k = None →
       let '(m1, σm) := translate_text_process text src zh (log (Lookup k) σ) in
       let '(r2, σ1) := translate_text_process m1 zh tgt σm in
       m1 = mid ∧ r2 = r ∧ σ' = store k r σ1
       ∧ (is_Some (translation_cache σ !! (text, src, zh)) →
          invocations σm = invocations σ)
       ∧ (is_Some (translation_cache σm !! (mid, zh, tgt)) →
          invocations σ1 = invocations σm))
  ∧ translation_cache σ' !! k = Some r
  ∧ translation_cache σ' !! (text, src, zh) = Some mid
  ∧ (mid ≠ [] → translation_cache σ' !! (mid, zh, tgt) = Some r).
Proof.
  intros Hrow. unfold composed_rows in Hrow.
  apply elem_of_cons in Hrow as [Hrow|Hrow];
    [|apply elem_of_cons in Hrow as [Hrow|Hrow]; [|by apply elem_of_nil in Hrow]].
  all: injection Hrow as -> -> -> ->.
  all: apply via_call; [reflexivity|reflexivity|reflexivity|discriminate|discriminate].
Qed.

(** C10.  In a state reached by running the router every key has a
    nonempty text; a call on the empty text leaves the cache as it was;
    and when the English-to-Chinese model answers a nonempty text with the
    empty string, the request for zh-TW stores that empty value under the
    two keys of the nonempty text and nothing for the empty hop. *)
Theorem cached_texts_are_nonempty (σ : state) :
  reachable σ →
  (∀ k v, translation_cache σ !! k = Some v → key_text k ≠ [])
  ∧ (∀ src tgt,
       translation_cache (translate_text_process [] src tgt σ).2
       = translation_cache σ)
  ∧ (∀ text, text ≠ [] → run_capability ModelEnZh text = [] →
       let σ' := (translate_text_process text (lit "en") (lit "zh-TW") σ).2 in
       translation_cache σ' !! (text, lit "en", lit "zh-CN") = Some []
       ∧ translation_cache σ' !! (text, lit "en", lit "zh-TW") = Some []
       ∧ ∀ src' tgt', translation_cache σ' !! ([], src', tgt') = None).
Proof.
  intros Hreach. split; [|split].
  - intros k v Hk. by destruct (reachable_coherent _ Hreach _ _ Hk) as (? & _).
  - intros src tgt. by rewrite translate_empty.
  - intros text Hne Hmid σ'.
    pose proof (via_call text (lit "en") (lit "zh-TW") (lit "zh-CN")
                  ModelEnZh ConvS2T σ) as Hvia.
    specialize (Hvia ltac:(reflexivity) ltac:(reflexivity) ltac:(reflexivity)
                     ltac:(discriminate) ltac:(discriminate) Hreach Hne).
    cbn zeta in Hvia. rewrite Hmid in Hvia. rewrite decide_True in Hvia by done.
    pose proof (reachable_coherent _
                  (reachable_call text (lit "en") (lit "zh-TW") σ Hreach)) as Hc'.
    fold σ' in Hc'. subst σ'.
    destruct (translate_text_process text (lit "en") (lit "zh-TW") σ) as [r' σ'].
    destruct Hvia as (_ & _ & Hk & Hk1 & _). cbn [snd] in *.
    split; [done|]. split; [done|]. intros src' tgt'.
    destruct (translation_cache σ' !! ([], src', tgt')) as [v|] eqn:He; [|done].
    by destruct (Hc' _ _ He) as (? & _).
Qed.

End Router.

(** * The theorems at work on the two sample backends *)

Lemma sample_ideographs_alphabetic (c : N) :
  (0x4e00 ≤ c ≤ 0x9fff)%N → isalpha_sample c = true.
Proof.
  intros Hc. unfold isalpha_sample. apply is_cjk_range in Hc. rewrite Hc.
  apply orb_true_r.
Qed.

Lemma detect_lang_always_en_witness :
  (∀ c, (0x4e00 ≤ c ≤ 0x9fff)%N → isalpha (Backend := marking_backend) c = true)
  ∧ detect_lang (B := marking_backend) [0x4f60; 0x597d]%N = lit "en".
Proof.
  split; [exact sample_ideographs_alphabetic|].
  exact (proj1 (@detect_lang_always_en marking_backend [0x4f60; 0x597d]%N
                  sample_ideographs_alphabetic)).
Defined.

Lemma auto_on_ideographs_resolves_en_witness :
  isalpha (Backend := marking_backend) 0x4f60%N = true
  ∧ isalpha (Backend := marking_backend) 0x597d%N = true
  ∧ detect_lang (B := marking_backend) [0x4f60; 0x597d]%N = lit "en".
Proof.
  split; [reflexivity|]. split; [reflexivity|].
  exact (proj1 (@auto_on_ideographs_resolves_en marking_backend
                  eq_refl eq_refl)).
Defined.

Lemma unrouted_pair_passes_through_witness :
  reachable (B := marking_backend) init_state
  ∧ lit "abc" ≠ []
  ∧ (translate_text_process (B := marking_backend)
       (lit "abc") (lit "fr") (lit "de") init_state).1 = lit "abc".
Proof.
  split; [constructor|]. split; [discriminate|].
  refine (proj2 (proj2 (@unrouted_pair_passes_through marking_backend
                          (lit "abc") (lit "fr") (lit "de") (lit "en") init_state
                          reachable_init _))).
  discriminate.
Defined.

Lemma auto_never_a_cached_source_witness :
  let σ := (translate_text_process (B := marking_backend)
              (lit "hi") (lit "auto") (lit "fr") init_state).2 in
  reachable (B := marking_backend) σ
  ∧ ∀ k v, translation_cache σ !! k = Some v → key_src k ≠ lit "auto".
Proof.
  intros σ.
  assert (reachable (B := marking_backend) σ) as Hreach by (constructor; constructor).
  split; [exact Hreach|].
  exact (proj1 (@auto_never_a_cached_source marking_backend σ Hreach)).
Defined.

Lemma cached_entries_never_change_witness :
  let σ := (translate_text_process (B := marking_backend)
              (lit "hi") (lit "en") (lit "zh-CN") init_state).2 in
  let k := (lit "hi", lit "en", lit "zh-CN") in
  let v := 0x4e2d%N :: lit "hi" in
  translation_cache σ !! k = Some v
  ∧ translation_cache
      (translate_text_process (B := marking_backend)
         (lit "hi") (lit "en") (lit "zh-TW") σ).2 !! k = Some v.
Proof.
  intros σ k v.
  assert (translation_cache σ !! k = Some v) as Hk by (vm_compute; reflexivity).
  split; [exact Hk|].
  exact (@cached_entries_never_change marking_backend
           (lit "hi") (lit "en") (lit "zh-TW") σ k v Hk).
Defined.

Lemma cached_texts_are_nonempty_witness :
  let σ' := (translate_text_process (B := silent_backend)
               (lit "a") (lit "en") (lit "zh-TW") init_state).2 in
  reachable (B := silent_backend) init_state
  ∧ translation_cache σ' !! (lit "a", lit "en", lit "zh-CN") = Some []
  ∧ translation_cache σ' !! (lit "a", lit "en", lit "zh-TW") = Some []
  ∧ ∀ src' tgt', translation_cache σ' !! ([], src', tgt') = None.
Proof.
  intros σ'. split; [constructor|].
  refine (proj2 (proj2 (@cached_texts_are_nonempty silent_backend init_state
                          reachable_init)) (lit "a") _ _).
  - discriminate.
  - reflexivity.
Defined.

Lemma composition_through_zh_CN_witness :
  (lit "en", lit "zh-TW", ModelEnZh, ConvS2T) ∈ composed_rows
  ∧ reachable (B := marking_backend) init_state
  ∧ lit "a" ≠ []
  ∧ (translate_text_process (B := marking_backend)
       (lit "a") (lit "en") (lit "zh-TW") init_state).1
    = [0x7e41; 0x4e2d; 0x61]%N.
Proof.
  assert ((lit "en", lit "zh-TW", ModelEnZh, ConvS2T) ∈ composed_rows) as Hrow
    by (unfold composed_rows; constructor).
  assert (lit "a" ≠ []) as Hne by discriminate.
  split; [exact Hrow|]. split; [constructor|]. split; [exact Hne|].
  pose proof (@composition_through_zh_CN marking_backend
                (lit "en") (lit "zh-TW") ModelEnZh ConvS2T (lit "a") init_state
                Hrow reachable_init Hne) as H.
  cbn zeta in H.
  destruct (translate_text_process (lit "a") (lit "en") (lit "zh-TW") init_state)
    as [r' σ'].
  exact (proj1 H).
Defined.

(** * Where the code departs from a statement *)

(** C1.  When the first capability answers with the empty string the
    second hop returns at once, and the result is the empty string
    whatever the second capability makes of the empty string. *)
Lemma composition_empty_intermediate :
  ¬ (∀ (B : Backend) (text : str) (σ : state),
       reachable σ → text ≠ [] →
       (translate_text_process text (lit "en") (lit "zh-TW") σ).1
       = converter_s2t_convert
           (token_en_zh_batch_decode (model_en_zh_generate (token_en_zh text)))).
Proof.
  intros H.
  specialize (H silent_backend (lit "a") init_state reachable_init
                ltac:(discriminate)).
  vm_compute in H. discriminate H.
Qed.

(** C7.  The target is stored as the caller gave it: after a call with
    target "auto" the cache has a key whose target is "auto". *)
Lemma auto_target_is_cached :
  ¬ (∀ (B : Backend) (σ : state), reachable σ →
       ∀ k v, translation_cache σ !! k = Some v →
              key_src k ≠ lit "auto" ∧ key_tgt k ≠ lit "auto").
Proof.
  intros H.
  specialize (H marking_backend _
                (reachable_call (lit "x") (lit "en") (lit "auto") init_state
                   reachable_init)
                (lit "x", lit "en", lit "auto") (lit "x")).
  destruct H as [_ H]; [vm_compute; reflexivity|]. by apply H.
Qed.

(** * More on the router *)

(** The four pairs served by one capability, each with its capability. *)
Definition direct_rows : list (str * str * capability) :=
  [ (lit "en", lit "zh-CN", ModelEnZh);
    (lit "zh-CN", lit "en", ModelZhEn);
    (lit "zh-CN", lit "zh-TW", ConvS2T);
    (lit "zh-TW", lit "zh-CN", ConvT2S) ].

(** The most invocations, and the most new entries, a request can cause,
    read off its row of the table. *)
Definition invocation_budget (r : route) : nat :=
  match r with Direct _ => 1 | Via _ => 2 | Passthrough => 0 end.

Definition entry_budget (r : route) : nat :=
  match r with Via _ => 3 | _ => 1 end.

Section RouterBounds.
Context {B : Backend}.

Lemma py_sum_le_on (p q : N → bool) (text : str) :
  (∀ c, c ∈ text → p c = true → q c = true) → py_sum p text ≤ py_sum q text.
Proof.
  unfold py_sum. induction text as [|c text IH]; intros Hpq; [done|].
  cbn [fmap list_fmap sum_list sum_list_with].
  assert (sum_list ((λ c, Nat.b2n (p c)) <$> text)
          ≤ sum_list ((λ c, Nat.b2n (q c)) <$> text)) as Hle.
  { apply IH. intros c' Hc'. apply Hpq. by right. }
  destruct (p c) eqn:Hp; [rewrite (Hpq c) by (done || left)|]; cbn; lia.
Qed.

Lemma invocations_log_invoke (c : capability) (t : str) (σ : state) :
  invocations (log (Invoke c t) σ) = invocations σ ++ [Invoke c t].
Proof. unfold invocations. cbn. by rewrite List.filter_app. Qed.

Lemma call_invocation_bound (text src tgt : str) (σ : state) (r : str) (σ' : state) :
  call text src tgt σ r σ' →
  length (invocations σ')
  ≤ length (invocations σ) + invocation_budget (dispatch (resolve_src text src) tgt).
Proof.
  induction 1 as [src tgt σ|text src tgt σ v Hne Hk|text src tgt σ c k Hne Hk Hd
                 |text src tgt σ m mid σm r σ1 k Hne Hk Hd Hc1 IH1 Hc2 IH2
                 |text src tgt σ k Hne Hk Hd].
  - lia.
  - rewrite invocations_log_lookup. lia.
  - rewrite Hd, invocations_store, invocations_log_invoke, invocations_log_lookup.
    rewrite length_app. cbn. lia.
  - destruct (dispatch_via_hop _ _ _ Hd) as (Hs & Hm & [c1 Hd1] & [c2 Hd2]).
    rewrite resolve_src_idemp, Hd1, invocations_log_lookup in IH1.
    rewrite (resolve_src_id mid m Hm), Hd2 in IH2.
    rewrite Hd, invocations_store. cbn in *. lia.
  - rewrite Hd, invocations_store, invocations_log_lookup. cbn. lia.
Qed.

Lemma size_store (k : key) (v : str) (σ : state) :
  size (translation_cache (store k v σ)) ≤ S (size (translation_cache σ)).
Proof.
  cbn. rewrite map_size_insert. destruct (translation_cache σ !! k); cbn; lia.
Qed.

Lemma call_entry_bound (text src tgt : str) (σ : state) (r : str) (σ' : state) :
  call text src tgt σ r σ' →
  size (translation_cache σ')
  ≤ size (translation_cache σ) + entry_budget (dispatch (resolve_src text src) tgt).
Proof.
  induction 1 as [src tgt σ|text src tgt σ v Hne Hk|text src tgt σ c k Hne Hk Hd
                 |text src tgt σ m mid σm r σ1 k Hne Hk Hd Hc1 IH1 Hc2 IH2
                 |text src tgt σ k Hne Hk Hd].
  - lia.
  - cbn. lia.
  - rewrite Hd. etrans; [apply size_store|]. cbn. lia.
  - destruct (dispatch_via_hop _ _ _ Hd) as (Hs & Hm & [c1 Hd1] & [c2 Hd2]).
    rewrite resolve_src_idemp, Hd1 in IH1.
    rewrite (resolve_src_id mid m Hm), Hd2 in IH2.
    rewrite Hd. etrans; [apply size_store|]. cbn in *. lia.
  - rewrite Hd. etrans; [apply size_store|]. cbn. lia.
Qed.

Lemma coherent_result_fresh (text src tgt : str) (σ : state) :
  coherent σ →
  (translate_text_process text src tgt σ).1
  = (translate_text_process text src tgt init_state).1.
Proof.
  intros Hc. destruct (decide (text = [])) as [->|Hne].
  - by rewrite !translate_empty.
  - rewrite !translate_value; auto using coherent_init.
Qed.

(** X1.  The cache is transparent: in a state reached by running the
    router a call returns what it returns on the empty cache. *)
Theorem cache_is_transparent (text src tgt : str) (σ : state) :
  reachable σ →
  (translate_text_process text src tgt σ).1
  = (translate_text_process text src tgt init_state).1.
Proof. intros Hreach. by apply coherent_result_fresh, reachable_coherent. Qed.

(** X2.  A request for one of the four direct pairs returns the output of
    its capability on the raw text; when the request is not cached the
    capability is invoked once, on that text, and the output is stored
    under the request's key; when it is cached nothing is invoked. *)
Theorem direct_pair_runs_its_capability (src tgt : str) (c : capability)
    (text : str) (σ : state) :
  (src, tgt, c) ∈ direct_rows →
  reachable σ → text ≠ [] →
  let k := (text, src, tgt) in
  let '(r, σ') := translate_text_process text src tgt σ in
  r = run_capability c text
  ∧ (translation_cache σ !! k = None →
       invocations σ' = invocations σ ++ [Invoke c text]
       ∧ translation_cache σ' = <[k := r]> (translation_cache σ))
  ∧ (is_Some (translation_cache σ !! k) →
       invocations σ' = invocations σ
       ∧ translation_cache σ' = translation_cache σ).
Proof.
  intros Hrow Hreach Hne k.
  assert (src ≠ lit "auto" ∧ dispatch src tgt = Direct c) as [Hs Hd].
  { unfold direct_rows in Hrow.
    repeat (apply elem_of_cons in Hrow as [Hrow|Hrow]);
      [..|by apply elem_of_nil in Hrow].
    all: injection Hrow as -> -> ->; split; [discriminate|reflexivity]. }
  pose proof (translate_value text src tgt σ (reachable_coherent _ Hreach) Hne) as Hv.
  rewrite (resolve_src_id text src Hs) in Hv.
  unfold routed_value in Hv. rewrite Hd in Hv.
  pose proof (λ Hk, translate_direct text src tgt σ c Hne Hk) as Hmiss.
  pose proof (λ v Hk, translate_hit text src tgt σ v Hne Hk) as Hhit.
  rewrite (resolve_src_id text src Hs) in Hmiss, Hhit. fold k in Hmiss, Hhit.
  destruct (translate_text_process text src tgt σ) as [r σ']. cbn [fst] in Hv.
  split; [done|]. split.
  - intros Hk. specialize (Hmiss Hk Hd). injection Hmiss as -> ->.
    by rewrite invocations_store, invocations_log_invoke, invocations_log_lookup.
  - intros [v Hk]. specialize (Hhit v Hk). injection Hhit as -> ->.
    by rewrite invocations_log_lookup.
Qed.

(** X3.  Whatever the state and the arguments, a call invokes at most two
    capabilities: at most one for a direct pair, none for a pair outside
    the table. *)
Theorem at_most_two_invocations (text src tgt : str) (σ : state) :
  let σ' := (translate_text_process text src tgt σ).2 in
  length (invocations σ')
  ≤ length (invocations σ)
    + invocation_budget (dispatch (resolve_src text src) tgt)
  ∧ length (invocations σ') ≤ length (invocations σ) + 2.
Proof.
  intros σ'.
  pose proof (call_invocation_bound _ _ _ _ _ _
                (translate_text_process_call text src tgt σ)) as Hb.
  fold σ' in Hb. split; [done|].
  destruct (dispatch (resolve_src text src) tgt); cbn in Hb; lia.
Qed.

(** X4.  Whatever the state and the arguments, a call adds at most three
    entries to the cache, and at most one unless the pair is composed. *)
Theorem at_most_three_new_entries (text src tgt : str) (σ : state) :
  let σ' := (translate_text_process text src tgt σ).2 in
  size (translation_cache σ')
  ≤ size (translation_cache σ)
    + entry_budget (dispatch (resolve_src text src) tgt)
  ∧ size (translation_cache σ') ≤ size (translation_cache σ) + 3.
Proof.
  intros σ'.
  pose proof (call_entry_bound _ _ _ _ _ _
                (translate_text_process_call text src tgt σ)) as Hb.
  fold σ' in Hb. split; [done|].
  destruct (dispatch (resolve_src text src) tgt); cbn in Hb; lia.
Qed.

(** X5.  [detect_lang] answers "zh-CN" only for a text with a character of
    U+4E00..U+9FFF that is not alphabetic, and "en" for every text without
    a character of that range. *)
Theorem detect_lang_zh_needs_unlettered_ideograph (text : str) :
  (detect_lang text = lit "zh-CN" →
     ∃ c, c ∈ text ∧ (0x4e00 ≤ c ≤ 0x9fff)%N ∧ isalpha c = false)
  ∧ ((∀ c, c ∈ text → ¬ (0x4e00 ≤ c ≤ 0x9fff)%N) → detect_lang text = lit "en").
Proof.
  assert (py_sum is_cjk text ≤ py_sum isalpha text → detect_lang text = lit "en")
    as Hen.
  { intros Hle. unfold detect_lang.
    destruct (Nat.ltb_spec (py_sum isalpha text) (py_sum is_cjk text)); [lia|done]. }
  split.
  - intros Hzh.
    destruct (decide (Exists (λ c, is_cjk c = true ∧ isalpha c = false) text))
      as [Hex|Hno].
    + apply Exists_exists in Hex as (c & Hc & Hcjk & Ha).
      exists c. by rewrite <- is_cjk_range.
    + rewrite Hen in Hzh; [discriminate Hzh|].
      apply py_sum_le_on. intros c Hc Hcjk.
      destruct (isalpha c) eqn:Ha; [done|].
      destruct Hno. apply Exists_exists. by exists c.
  - intros Hnone. apply Hen. apply py_sum_le_on. intros c Hc Hcjk.
    destruct (Hnone c Hc). by apply is_cjk_range.
Qed.

End RouterBounds.

Lemma direct_pair_runs_its_capability_witness :
  (lit "zh-CN", lit "zh-TW", ConvS2T) ∈ direct_rows
  ∧ reachable (B := marking_backend) init_state
  ∧ lit "a" ≠ []
  ∧ (translate_text_process (B := marking_backend)
       (lit "a") (lit "zh-CN") (lit "zh-TW") init_state).1
    = [0x7e41; 0x61]%N.
Proof.
  assert ((lit "zh-CN", lit "zh-TW", ConvS2T) ∈ direct_rows) as Hrow
    by (unfold direct_rows; repeat constructor).
  assert (lit "a" ≠ []) as Hne by discriminate.
  split; [exact Hrow|]. split; [constructor|]. split; [exact Hne|].
  pose proof (@direct_pair_runs_its_capability marking_backend
                (lit "zh-CN") (lit "zh-TW") ConvS2T (lit "a") init_state
                Hrow reachable_init Hne) as H.
  cbn zeta in H.
  destruct (translate_text_process (lit "a") (lit "zh-CN") (lit "zh-TW") init_state)
    as [r σ'].
  exact (proj1 H).
Defined.

Lemma cache_is_transparent_witness :
  let σ := (translate_text_process (B := marking_backend)
              (lit "a") (lit "en") (lit "zh-TW") init_state).2 in
  reachable (B := marking_backend) σ
  ∧ (translate_text_process (B := marking_backend)
       (lit "a") (lit "en") (lit "zh-CN") σ).1
    = (translate_text_process (B := marking_backend)
         (lit "a") (lit "en") (lit "zh-CN") init_state).1.
Proof.
  intros σ.
  assert (reachable (B := marking_backend) σ) as Hreach by (constructor; constructor).
  split; [exact Hreach|].
  exact (@cache_is_transparent marking_backend
           (lit "a") (lit "en") (lit "zh-CN") σ Hreach).
Defined.

(** * The pages, the login gate and the task store

    The Flask handlers, each as a function of the request, of the session
    of the client and of the state of the server.  A session holds the
    four keys the application writes; the server holds the state of the
    router and the files of the two data folders. *)

Module Portal.

(** Settings read at import time, and functions of the runtime. *)
Class Site : Type := {
  DEV_PASSWORD : str;
  TASKS_DIR : str;
  SESS_DIR : str;
  (** [str.isspace], which [str.strip] goes by *)
  isspace : N → bool;
  (** [url_for("serve_audio", filename=...)] *)
  url_for_serve_audio : str → str
}.

(** [session]: a key is absent ([None]) or bound. *)
Record session : Type := mkSession {
  sess_user_id : option str;
  sess_email : option (option str);
  sess_name : option (option str);
  sess_dev_verified : option bool
}.

Definition empty_session : session := mkSession None None None None.

(** The claims Google returns: ["sub"] is read with a subscript, the
    other two with [.get]. *)
Record userinfo : Type := mkUserinfo {
  ui_sub : str;
  ui_email : option str;
  ui_name : option str
}.

(** An entry of a tasks file: ["id"], ["name"] and ["audio"] are read with
    a subscript, the other keys with [.get(key, "")]. *)
Record task : Type := mkTask {
  task_id : Z;
  task_name : str;
  task_audio : str;
  task_original : option str;
  task_translated : option str;
  task_created_at : option str
}.

(** The dictionary [get_task_detail] answers with. *)
Record task_detail : Type := mkDetail {
  detail_id : Z;
  detail_name : str;
  detail_original : str;
  detail_translated : str;
  detail_created_at : str;
  detail_audio_url : str
}.

(** The uploaded file of a form. *)
Record upload : Type := mkUpload {
  filename : str;
  content_length : Z;
  content : list N
}.

Inductive endpoint : Type :=
  | EpLogin
  | EpVerifyDev
  | EpIndex.

Inductive method : Type :=
  | GET
  | POST.

Inductive response : Type :=
  | Redirect (e : endpoint)
  | RenderVerify (error : option str)
  | RenderIndex (user_email : option str)
  | JsonTranslated (translated : str)
  | JsonTasks (tasks : list task)
  | JsonTaskDetail (d : task_detail)
  | JsonSaveFailed (error : str)
  | JsonSaved (name : str)
  | Abort (code : nat).

(** The server: the router's state, the tasks files and the audio files,
    each file under its path. *)
Record server : Type := mkServer {
  router : state;
  task_files : gmap str (list task);
  audio_files : gmap str (list N)
}.

Definition init_server : server := mkServer init_state ∅ ∅.

(** ** Library functions of Python *)

(** Truth value of a string and of [session.get("dev_verified")]. *)
Definition truthy_str (o : option str) : bool :=
  match o with Some (_ :: _) => true | _ => false end.

Definition truthy_bool (o : option bool) : bool :=
  match o with Some true => true | _ => false end.

(** [posixpath.join] on two components. *)
Definition path_join (a b : str) : str :=
  match b with
  | 0x2f%N :: _ => b
  | _ => if decide (a = []) then a ++ b
         else if decide (last a = Some 0x2f%N) then a ++ b
         else a ++ lit "/" ++ b
  end.

(** [str(n)] and [f"{n:03d}"] of an integer. *)
Definition py_str_int (n : Z) : str := lit (pretty n).

Definition zero_pad (width : nat) (digits : str) : str :=
  replicate (width - length digits) 0x30%N ++ digits.

Definition format_03d (n : Z) : str :=
  if (n <? 0)%Z then lit "-" ++ zero_pad 2 (lit (pretty (Z.abs_N n)))
  else zero_pad 3 (lit (pretty n)).

(** [max(ids, default=0)] *)
Definition py_max_default (l : list Z) (d : Z) : Z :=
  match l with
  | [] => d
  | x :: l' => foldl Z.max x l'
  end.

(** [dict.get(key, "")] on a form or on the body of a request. *)
Definition field (key : string) (form : gmap string str) : str :=
  default [] (form !! key).

(** A site to run the pages on: ASCII blanks are the whitespace, and the
    address of an audio file is its name under [/audio/]. *)
Definition sample_site : Site := {|
  DEV_PASSWORD := lit "s3cret";
  TASKS_DIR := lit "/app/tasks";
  SESS_DIR := lit "/app/sessions";
  isspace := λ c, bool_decide (c ∈ [0x20; 0x09; 0x0a; 0x0d]%N);
  url_for_serve_audio := λ f, lit "/audio/" ++ f
|}.

Section Handlers.
Context {B : Backend} {site : Site}.

Fixpoint lstrip (t : str) : str :=
  match t with
  | c :: t' => if isspace c then lstrip t' else t
  | [] => []
  end.

(** [str.strip()] *)
Definition strip (t : str) : str := reverse (lstrip (reverse (lstrip t))).

(** ** The login gate *)

(** A page behind [login_required]: it reads the session and may change
    the server. *)
Definition page : Type := session → server → response * server.

Definition login_required (f : page) : page := λ s srv,
  if decide (sess_user_id s = None) then (Redirect EpLogin, srv)
  else if negb (truthy_bool (sess_dev_verified s)) then (Redirect EpVerifyDev, srv)
  else f s srv.

(** [abort(401)] is the left, the user id the right. *)
Definition get_current_user_id (s : session) : response + str :=
  if truthy_str (sess_user_id s) then inr (default [] (sess_user_id s))
  else inl (Abort 401).

Definition get_user_tasks_file (s : session) : response + str :=
  match get_current_user_id s with
  | inl r => inl r
  | inr uid => inr (path_join TASKS_DIR (lit "tasks_" ++ uid ++ lit ".json"))
  end.

Definition load_user_tasks (s : session) (srv : server) : response + list task :=
  match get_user_tasks_file s with
  | inl r => inl r
  | inr path => inr (default [] (task_files srv !! path))
  end.

Definition save_user_tasks (tasks : list task) (s : session) (srv : server)
  : response + server :=
  match get_user_tasks_file s with
  | inl r => inl r
  | inr path =>
      inr (mkServer (router srv) (<[path := tasks]> (task_files srv)) (audio_files srv))
  end.

Definition get_user_audio_dir (s : session) : response + str :=
  match get_current_user_id s with
  | inl r => inl r
  | inr uid => inr (path_join SESS_DIR uid)
  end.

(** ** The pages of the login flow *)

(** The user information is that of the token when the token has one, and
    that parsed from the id token otherwise. *)
Definition auth_callback (token_userinfo : option userinfo) (id_token : userinfo)
    (s : session) : response * session :=
  let userinfo := match token_userinfo with Some u => u | None => id_token end in
  (Redirect EpVerifyDev,
   mkSession (Some (ui_sub userinfo)) (Some (ui_email userinfo))
             (Some (ui_name userinfo)) (Some false)).

Definition wrong_password : str :=
  [0x958b; 0x767c; 0x8005; 0x5bc6; 0x78bc; 0x932f; 0x8aa4; 0xff0c;
   0x8acb; 0x518d; 0x8a66; 0x4e00; 0x6b21; 0x3002]%N.

Definition verify_dev (meth : method) (form : gmap string str) (s : session)
  : response * session :=
  if decide (sess_user_id s = None) then (Redirect EpLogin, s)
  else
    match meth with
    | POST =>
        let pwd := field "password" form in
        if decide (pwd = DEV_PASSWORD) then
          (Redirect EpIndex,
           mkSession (sess_user_id s) (sess_email s) (sess_name s) (Some true))
        else (RenderVerify (Some wrong_password), s)
    | GET => (RenderVerify None, s)
    end.

Definition logout (s : session) : response * session :=
  (Redirect EpLogin, empty_session).

(** ** The pages behind the gate *)

Definition index : page := login_required (λ s srv,
  (RenderIndex (default None (sess_email s)), srv)).

(** The body of the request is a JSON object whose fields are strings. *)
Definition translate_api (data : gmap string str) : page := login_required (λ s srv,
  let text := field "text" data in
  let src := default (lit "auto") (data !! "src_lang") in
  let tgt := default (lit "zh-TW") (data !! "tgt_lang") in
  let '(translated, σ) := translate_text_process text src tgt (router srv) in
  (JsonTranslated translated, mkServer σ (task_files srv) (audio_files srv))).

Definition get_tasks : page := login_required (λ s srv,
  match load_user_tasks s srv with
  | inl r => (r, srv)
  | inr tasks => (JsonTasks tasks, srv)
  end).

(** The [for] loop of [get_task_detail]: the first task with the id, or
    [abort(404)]. *)
Fixpoint task_detail_loop (id : Z) (tasks : list task) : response :=
  match tasks with
  | t :: tasks' =>
      if decide (task_id t = id) then
        JsonTaskDetail
          (mkDetail (task_id t) (task_name t)
             (default [] (task_original t)) (default [] (task_translated t))
             (default [] (task_created_at t))
             (url_for_serve_audio (task_audio t)))
      else task_detail_loop id tasks'
  | [] => Abort 404
  end.

(** The id comes from the [<int:task_id>] part of the URL, which has no
    sign. *)
Definition get_task_detail (id : N) : page := login_required (λ s srv,
  match load_user_tasks s srv with
  | inl r => (r, srv)
  | inr tasks => (task_detail_loop (Z.of_N id) tasks, srv)
  end).

Definition auto_name (new_id : Z) : str :=
  [0x8a9e; 0x97f3]%N ++ format_03d new_id.

(** [now] is [datetime.now().strftime("%Y-%m-%d %H:%M:%S")]. *)
Definition save_session (form : gmap string str) (audio_file : option upload)
    (now : str) : page := login_required (λ s srv,
  let name := strip (field "name" form) in
  let original := field "original_text" form in
  let translated := field "translated_text" form in
  match audio_file with
  | None => (JsonSaveFailed (lit "audio empty"), srv)
  | Some f =>
    if decide (filename f = []) then (JsonSaveFailed (lit "audio empty"), srv)
    else if decide (content_length f = 0%Z) then
      (JsonSaveFailed (lit "audio empty"), srv)
    else
      match load_user_tasks s srv with
      | inl r => (r, srv)
      | inr tasks =>
        let new_id := (py_max_default (task_id <$> tasks) 0 + 1)%Z in
        let name := if decide (name = []) then auto_name new_id else name in
        match get_user_audio_dir s with
        | inl r => (r, srv)
        | inr user_audio_dir =>
          let audio_filename := lit "session_" ++ py_str_int new_id ++ lit ".webm" in
          let audio_path := path_join user_audio_dir audio_filename in
          let srv1 :=
            mkServer (router srv) (task_files srv)
                     (<[audio_path := content f]> (audio_files srv)) in
          let task :=
            mkTask new_id name audio_filename
                   (Some original) (Some translated) (Some now) in
          match save_user_tasks (tasks ++ [task]) s srv1 with
          | inl r => (r, srv1)
          | inr srv2 => (JsonSaved name, srv2)
          end
        end
      end
  end).

(** ** Sessions and servers of a running site *)

(** What a client's session can become: the login flow is all that writes
    to it. *)
Inductive session_step : session → session → Prop :=
  | step_auth_callback tu it s :
      session_step s (auth_callback tu it s).2
  | step_verify_dev meth form s :
      session_step s (verify_dev meth form s).2
  | step_logout s :
      session_step s (logout s).2.

Inductive reachable_session : session → Prop :=
  | reachable_session_empty : reachable_session empty_session
  | reachable_session_step s s' :
      reachable_session s → session_step s s' → reachable_session s'.

(** What the server can become: requests to the pages that write, from
    clients with any session. *)
Inductive reachable_server : server → Prop :=
  | reachable_server_init : reachable_server init_server
  | reachable_translate data s srv :
      reachable_server srv →
      reachable_server (translate_api data s srv).2
  | reachable_save form audio_file now s srv :
      reachable_server srv →
      reachable_server (save_session form audio_file now s srv).2.

(** The tasks of a user, as the pages read them. *)
Definition tasks_of (uid : str) (srv : server) : list task :=
  default [] (task_files srv
                !! path_join TASKS_DIR (lit "tasks_" ++ uid ++ lit ".json")).

(** The path of an audio file of a user. *)
Definition audio_path_of (uid fname : str) : str :=
  path_join (path_join SESS_DIR uid) fname.

(** The id [save_session] gives to a new task, the name of its audio file
    and the task it appends. *)
Definition next_id (tasks : list task) : Z :=
  (py_max_default (task_id <$> tasks) 0 + 1)%Z.

Definition session_file (id : Z) : str :=
  lit "session_" ++ py_str_int id ++ lit ".webm".

Definition saved_name (form : gmap string str) (new_id : Z) : str :=
  if decide (strip (field "name" form) = []) then auto_name new_id
  else strip (field "name" form).

Definition new_task (form : gmap string str) (now : str) (new_id : Z) : task :=
  mkTask new_id (saved_name form new_id) (session_file new_id)
         (Some (field "original_text" form))
         (Some (field "translated_text" form)) (Some now).

(** The tasks at each position of a list are numbered from one. *)
Definition numbered (tasks : list task) : Prop :=
  ∀ i t, tasks !! i = Some t → task_id t = (Z.of_nat i + 1)%Z.

End Handlers.

Section HandlerProofs.
Context {B : Backend} {site : Site}.

(** ** The login flow *)

Lemma reachable_session_verified (s : session) :
  reachable_session s →
  truthy_bool (sess_dev_verified s) = true → is_Some (sess_user_id s).
Proof.
  induction 1 as [|s s' Hs IH Hstep]; [done|].
  destruct Hstep as [tu it s|meth form s|s]; cbn; try done.
  unfold verify_dev. case_decide as Hu; [done|].
  destruct meth; [done|]. case_decide; cbn; [|done].
  intros _. by destruct (sess_user_id s).
Qed.

(** X6.  In a session produced by the login flow, a verified session has
    a user id: the gate lets a request through exactly on the verified
    flag, and answers any other request with a redirect, to the login
    page without a user id and to the password page with one, leaving the
    server as it was. *)
Theorem gate_opens_on_the_verified_flag (s : session) (f : page) (srv : server) :
  reachable_session s →
  (truthy_bool (sess_dev_verified s) = true → login_required f s srv = f s srv)
  ∧ (truthy_bool (sess_dev_verified s) = false →
       login_required f s srv
       = (Redirect (if decide (sess_user_id s = None) then EpLogin else EpVerifyDev),
          srv)).
Proof.
  intros Hreach. split; intros Hv; unfold login_required.
  - destruct (reachable_session_verified s Hreach Hv) as [uid Hu].
    rewrite decide_False by congruence. by rewrite Hv.
  - case_decide; [done|]. by rewrite Hv.
Qed.

(** X7.  A step of the login flow turns an unverified session into a
    verified one only as a POST to the password page, by a session with a
    user id, whose password field is the developer password; the user id
    is kept. *)
Theorem only_the_password_verifies (s s' : session) :
  session_step s s' →
  truthy_bool (sess_dev_verified s) = false →
  truthy_bool (sess_dev_verified s') = true →
  is_Some (sess_user_id s)
  ∧ sess_user_id s' = sess_user_id s
  ∧ ∃ form, field "password" form = DEV_PASSWORD
            ∧ s' = (verify_dev POST form s).2.
Proof.
  intros Hstep Hs Hs'.
  destruct Hstep as [tu it s|meth form s|s]; cbn in Hs'; try done.
  assert (sess_user_id s ≠ None ∧ meth = POST ∧ field "password" form = DEV_PASSWORD)
    as (Hu & -> & Hp).
  { unfold verify_dev in Hs'. case_decide as Hu; cbn in Hs'; [congruence|].
    destruct meth; cbn in Hs'; [congruence|].
    case_decide as Hp; cbn in Hs'; [done|congruence]. }
  split; [by destruct (sess_user_id s)|]. split.
  - unfold verify_dev. by rewrite decide_False, decide_True.
  - by exists form.
Qed.

(** X8.  After the OAuth callback the session has the user id of the
    account and is not verified, whatever it was before: the gate sends
    every request to the password page; a POST with another password
    changes nothing; a POST with the developer password opens the gate. *)
Theorem fresh_login_needs_the_password (tu : option userinfo) (it : userinfo)
    (s0 : session) (form : gmap string str) (f : page) (srv : server) :
  let s1 := (auth_callback tu it s0).2 in
  let s2 := (verify_dev POST form s1).2 in
  sess_user_id s1 = Some (ui_sub (default it tu))
  ∧ login_required f s1 srv = (Redirect EpVerifyDev, srv)
  ∧ (field "password" form ≠ DEV_PASSWORD →
       verify_dev POST form s1 = (RenderVerify (Some wrong_password), s1))
  ∧ (field "password" form = DEV_PASSWORD →
       verify_dev POST form s1 = (Redirect EpIndex, s2)
       ∧ sess_user_id s2 = sess_user_id s1
       ∧ login_required f s2 srv = f s2 srv).
Proof.
  intros s1 s2. subst s1 s2. unfold auth_callback, verify_dev, login_required.
  cbn. split; [by destruct tu|]. split; [by rewrite decide_False|].
  split; intros Hp; rewrite decide_False by done.
  - by rewrite decide_False.
  - rewrite decide_True by done. cbn. by rewrite decide_False.
Qed.

(** X9.  After [logout] the session is empty, and requests to the
    password page, whatever their number, method and password, leave it
    empty: the gate sends every request to the login page until a new
    OAuth callback. *)
Theorem logout_needs_a_new_login (s s' : session) (f : page) (srv : server) :
  rtc (λ a b, ∃ meth form, b = (verify_dev meth form a).2) (logout s).2 s' →
  s' = empty_session
  ∧ login_required f s' srv = (Redirect EpLogin, srv).
Proof.
  intros Hposts.
  assert (s' = empty_session) as ->; [|done].
  remember (logout s).2 as s0 eqn:Hs0. cbn in Hs0.
  induction Hposts as [s0|s0 s1 s2 (meth & form & Hstep) _ IH]; [done|].
  apply IH. subst s0 s1. reflexivity.
Qed.

(** ** Paths, maxima and the loop *)

Lemma tasks_path_inj (uid uid' : str) :
  path_join TASKS_DIR (lit "tasks_" ++ uid ++ lit ".json")
  = path_join TASKS_DIR (lit "tasks_" ++ uid' ++ lit ".json") →
  uid = uid'.
Proof.
  unfold path_join. cbn. repeat case_decide; intros Heq.
  all: repeat (apply app_inv_head in Heq).
  all: injection Heq as Heq; by apply app_inv_tail in Heq.
Qed.

Lemma foldl_max_ge (l : list Z) (a : Z) :
  (a ≤ foldl Z.max a l)%Z ∧ ∀ y, y ∈ l → (y ≤ foldl Z.max a l)%Z.
Proof.
  revert a. induction l as [|x l IH]; intros a; cbn.
  - split; [lia|]. intros y Hy. by apply elem_of_nil in Hy.
  - destruct (IH (Z.max a x)) as [H1 H2]. split; [lia|].
    intros y Hy. apply elem_of_cons in Hy as [->|Hy]; [lia|by apply H2].
Qed.

Lemma foldl_max_in (l : list Z) (a : Z) :
  foldl Z.max a l = a ∨ foldl Z.max a l ∈ l.
Proof.
  revert a. induction l as [|x l IH]; intros a; cbn; [by left|].
  destruct (IH (Z.max a x)) as [Heq|Hin].
  - rewrite Heq. destruct (Z.max_spec a x) as [[_ ->]|[_ ->]]; [right; left|by left].
  - right. by right.
Qed.

Lemma py_max_default_ge (l : list Z) (d x : Z) :
  x ∈ l → (x ≤ py_max_default l d)%Z.
Proof.
  destruct l as [|a l]; [intros H; by apply elem_of_nil in H|]. cbn.
  destruct (foldl_max_ge l a) as [H1 H2].
  intros Hx. apply elem_of_cons in Hx as [->|Hx]; auto.
Qed.

Lemma py_max_default_in (l : list Z) (d : Z) :
  l ≠ [] → py_max_default l d ∈ l.
Proof.
  destruct l as [|a l]; [done|]. intros _. cbn.
  destruct (foldl_max_in l a) as [->|Hin]; [left|by right].
Qed.

Lemma next_id_fresh (tasks : list task) :
  next_id tasks ∉ task_id <$> tasks.
Proof.
  intros Hin. apply (py_max_default_ge _ 0) in Hin. unfold next_id in Hin. lia.
Qed.

Lemma numbered_next_id (tasks : list task) :
  numbered tasks → next_id tasks = (Z.of_nat (length tasks) + 1)%Z.
Proof.
  intros Hnum. unfold next_id. f_equal.
  destruct (decide (tasks = [])) as [->|Hne]; [done|].
  apply Z.le_antisymm.
  - assert (task_id <$> tasks ≠ []) as Hne' by (by destruct tasks).
    pose proof (py_max_default_in _ 0 Hne') as Hin.
    apply list_elem_of_fmap in Hin as (t & -> & Ht).
    apply list_elem_of_lookup in Ht as [i Hi].
    rewrite (Hnum i t Hi). apply lookup_lt_Some in Hi. lia.
  - destruct (tasks !! (length tasks - 1)) as [t|] eqn:Ht.
    + rewrite <- (py_max_default_ge (task_id <$> tasks) 0 (task_id t)).
      * rewrite (Hnum _ _ Ht). destruct tasks; [done|]. cbn. lia.
      * apply list_elem_of_fmap. exists t. split; [done|].
        apply list_elem_of_lookup. eauto.
    + apply lookup_ge_None in Ht. destruct tasks; [done|]. cbn in Ht. lia.
Qed.

Lemma numbered_snoc (tasks : list task) (t : task) :
  numbered tasks → task_id t = (Z.of_nat (length tasks) + 1)%Z →
  numbered (tasks ++ [t]).
Proof.
  intros Hnum Ht i t' Hi.
  destruct (decide (i < length tasks)) as [Hlt|Hge].
  - rewrite lookup_app_l in Hi by done. by apply Hnum.
  - rewrite lookup_app_r in Hi by lia.
    destruct (i - length tasks) as [|j] eqn:Hj; [|done].
    injection Hi as <-. rewrite Ht. lia.
Qed.

Lemma task_detail_loop_absent (id : Z) (tasks : list task) :
  task_detail_loop id tasks = Abort 404 ↔ id ∉ task_id <$> tasks.
Proof.
  induction tasks as [|t tasks IH]; cbn.
  - split; [intros _ H; by apply elem_of_nil in H|done].
  - destruct (decide (task_id t = id)) as [Ht|Ht].
    + split; [done|]. intros Hout. destruct Hout. rewrite Ht. left.
    + rewrite IH. rewrite not_elem_of_cons.
      split; [intros ?; split; [congruence|done]|by intros [_ ?]].
Qed.

Lemma task_detail_loop_app (id : Z) (l l' : list task) :
  task_detail_loop id (l ++ l')
  = if decide (id ∈ task_id <$> l) then task_detail_loop id l
    else task_detail_loop id l'.
Proof.
  induction l as [|t l IH]; cbn [app fmap list_fmap task_detail_loop].
  - rewrite decide_False; [done|]. intros H. by apply elem_of_nil in H.
  - destruct (decide (task_id t = id)) as [Ht|Ht].
    + rewrite decide_True; [done|]. rewrite Ht. left.
    + rewrite IH. destruct (decide (id ∈ task_id <$> l)) as [Hin|Hout].
      * rewrite decide_True; [done|]. by right.
      * rewrite decide_False; [done|]. rewrite not_elem_of_cons.
        split; [congruence|done].
Qed.

(** ** What [save_session] does, path by path *)

Lemma save_session_cases (form : gmap string str) (audio_file : option upload)
    (now : str) (s : session) (srv : server) :
  (save_session form audio_file now s srv).2 = srv
  ∧ (∀ name, (save_session form audio_file now s srv).1 ≠ JsonSaved name)
  ∨ ∃ uid f,
      sess_user_id s = Some uid ∧ uid ≠ []
      ∧ truthy_bool (sess_dev_verified s) = true
      ∧ audio_file = Some f ∧ filename f ≠ [] ∧ content_length f ≠ 0%Z
      ∧ let new_id := next_id (tasks_of uid srv) in
        save_session form audio_file now s srv
        = (JsonSaved (saved_name form new_id),
           mkServer (router srv)
             (<[path_join TASKS_DIR (lit "tasks_" ++ uid ++ lit ".json")
                := tasks_of uid srv ++ [new_task form now new_id]]>
                (task_files srv))
             (<[audio_path_of uid (session_file new_id) := content f]>
                (audio_files srv))).
Proof.
  unfold save_session, login_required.
  case_decide as Hu; [by left|].
  destruct (truthy_bool (sess_dev_verified s)) eqn:Hv; cbn [negb]; [|by left].
  destruct audio_file as [f|]; [|by left].
  case_decide as Hf; [by left|]. case_decide as Hl; [by left|].
  unfold load_user_tasks, save_user_tasks, get_user_audio_dir,
    get_user_tasks_file, get_current_user_id.
  destruct (sess_user_id s) as [[|c uid]|] eqn:Hs; cbn; [by left| |done].
  right. exists (c :: uid), f. repeat split; done.
Qed.

(** ** The translation page *)

Lemma reachable_server_router (srv : server) :
  reachable_server srv → reachable (router srv).
Proof.
  induction 1 as [|data s srv _ IH|form af now s srv _ IH]; [constructor| |].
  - unfold translate_api, login_required.
    case_decide; [done|]. destruct (negb _); [done|].
    pose proof (reachable_call (field "text" data)
                  (default (lit "auto") (data !! "src_lang"))
                  (default (lit "zh-TW") (data !! "tgt_lang")) _ IH) as Hr.
    by destruct (translate_text_process _ _ _ _).
  - destruct (save_session_cases form af now s srv) as [[-> _]|(uid & f & H)];
      [done|].
    destruct H as (_ & _ & _ & _ & _ & _ & ->). done.
Qed.

(** X10.  On a running server, a request to the translation page from a
    verified session is answered with what the router returns on an empty
    cache for the text, the source (default "auto") and the target
    (default "zh-TW") of the body; the files are not touched; and a body
    without text is answered with the empty string, the server unchanged. *)
Theorem translate_api_answers_like_a_fresh_router (data : gmap string str)
    (s : session) (srv : server) :
  reachable_server srv →
  is_Some (sess_user_id s) → truthy_bool (sess_dev_verified s) = true →
  let text := field "text" data in
  let src := default (lit "auto") (data !! "src_lang") in
  let tgt := default (lit "zh-TW") (data !! "tgt_lang") in
  let '(r, srv') := translate_api data s srv in
  r = JsonTranslated (translate_text_process text src tgt init_state).1
  ∧ router srv' = (translate_text_process text src tgt (router srv)).2
  ∧ task_files srv' = task_files srv
  ∧ audio_files srv' = audio_files srv
  ∧ (data !! "text" = None → r = JsonTranslated [] ∧ srv' = srv).
Proof.
  intros Hreach [uid Hu] Hv text src tgt.
  unfold translate_api, login_required.
  rewrite decide_False by congruence. rewrite Hv. cbn [negb].
  fold text src tgt.
  pose proof (coherent_result_fresh text src tgt (router srv)
                (reachable_coherent _ (reachable_server_router _ Hreach))) as Ht.
  destruct (translate_text_process text src tgt (router srv)) as [r σ] eqn:Hpair.
  cbn [fst snd] in *. rewrite Ht.
  split; [done|]. split; [done|]. split; [done|]. split; [done|].
  intros Hnone.
  assert (text = []) as Htext by (subst text; unfold field; by rewrite Hnone).
  rewrite Htext in Ht |- *. rewrite translate_empty in Ht |- *. cbn [fst] in *.
  split; [done|].
  assert (translate_text_process text src tgt (router srv) = ([], router srv))
    as He' by (by rewrite Htext).
  rewrite He' in Hpair. injection Hpair as _ <-. by destruct srv.
Qed.

(** ** The task store *)

Lemma reachable_server_numbered (srv : server) :
  reachable_server srv →
  ∀ path tasks, task_files srv !! path = Some tasks → numbered tasks.
Proof.
  induction 1 as [|data s srv _ IH|form af now s srv _ IH].
  - intros path tasks Hp. cbn in Hp. by rewrite lookup_empty in Hp.
  - unfold translate_api, login_required.
    case_decide; [done|]. destruct (negb _); [done|].
    by destruct (translate_text_process _ _ _ _).
  - destruct (save_session_cases form af now s srv) as [[-> _]|(uid & f & H)];
      [done|].
    destruct H as (_ & _ & _ & _ & _ & _ & ->). cbn [snd task_files].
    intros path tasks. rewrite lookup_insert. case_decide as Hp; [|by apply IH].
    intros [= <-].
    assert (numbered (tasks_of uid srv)) as Hnum.
    { unfold tasks_of.
      destruct (task_files srv !! _) as [old|] eqn:Hold; cbn; [by eapply IH|].
      intros i t Hi. by rewrite lookup_nil in Hi. }
    apply numbered_snoc; [done|]. cbn. by apply numbered_next_id.
Qed.

(** X11.  On a running server the tasks of every tasks file are numbered
    from one in the order of the file: the task at position [i], counting
    from zero, has id [i + 1].  No two tasks of a file share an id. *)
Theorem task_ids_count_from_one (srv : server) (path : str) (tasks : list task) :
  reachable_server srv →
  task_files srv !! path = Some tasks →
  (∀ i t, tasks !! i = Some t → task_id t = (Z.of_nat i + 1)%Z)
  ∧ NoDup (task_id <$> tasks).
Proof.
  intros Hreach Hp.
  pose proof (reachable_server_numbered srv Hreach path tasks Hp) as Hnum.
  split; [exact Hnum|].
  apply NoDup_alt. intros i j x Hi Hj.
  apply list_lookup_fmap_Some in Hi as (ti & -> & Hti).
  apply list_lookup_fmap_Some in Hj as (tj & Heq & Htj).
  rewrite (Hnum _ _ Hti), (Hnum _ _ Htj) in Heq. lia.
Qed.

(** X12.  When [save_session] answers that the task is saved, on a running
    server, the task detail page of the same client serves the new task
    under the id one above the number of the client's earlier tasks: the
    saved name, the two texts of the form, the time of the request and the
    address of the audio file named after the id; and the bytes of the
    upload are the content of that audio file. *)
Theorem saved_task_is_served (form : gmap string str) (audio_file : option upload)
    (now : str) (s : session) (srv srv' : server) (name : str) :
  reachable_server srv →
  save_session form audio_file now s srv = (JsonSaved name, srv') →
  ∃ uid f,
    sess_user_id s = Some uid ∧ audio_file = Some f
    ∧ let n := S (length (tasks_of uid srv)) in
      name = saved_name form (Z.of_nat n)
      ∧ get_task_detail (N.of_nat n) s srv'
        = (JsonTaskDetail
             (mkDetail (Z.of_nat n) name
                (field "original_text" form) (field "translated_text" form) now
                (url_for_serve_audio (session_file (Z.of_nat n)))),
           srv')
      ∧ audio_files srv' !! audio_path_of uid (session_file (Z.of_nat n))
        = Some (content f).
Proof.
  intros Hreach Hsave.
  destruct (save_session_cases form audio_file now s srv)
    as [[_ Hno]|(uid & f & Hu & Hne & Hv & Haf & _ & _ & Heq)].
  { rewrite Hsave in Hno. by destruct (Hno name). }
  rewrite Hsave in Heq. cbn zeta in Heq.
  assert (numbered (tasks_of uid srv)) as Hnum.
  { unfold tasks_of.
    destruct (task_files srv !! _) as [old|] eqn:Hold; cbn;
      [by eapply reachable_server_numbered|].
    intros i t Hi. by rewrite lookup_nil in Hi. }
  pose proof (next_id_fresh (tasks_of uid srv)) as Hfresh.
  rewrite (numbered_next_id _ Hnum) in Heq, Hfresh.
  replace (Z.of_nat (length (tasks_of uid srv)) + 1)%Z
    with (Z.of_nat (S (length (tasks_of uid srv)))) in Heq, Hfresh by lia.
  injection Heq as -> ->.
  exists uid, f. split; [done|]. split; [done|]. cbn zeta.
  split; [done|]. split.
  - unfold get_task_detail, login_required, load_user_tasks,
      get_user_tasks_file, get_current_user_id.
    rewrite Hu, decide_False, Hv by done. cbn [negb].
    destruct uid as [|c uid]; [done|]. cbn [truthy_str default from_option id].
    cbn [task_files]. rewrite lookup_insert_eq. cbn [default from_option id].
    rewrite nat_N_Z, task_detail_loop_app, decide_False by done.
    cbn. by rewrite decide_True.
  - cbn [audio_files]. by rewrite lookup_insert_eq.
Qed.

Lemma load_user_tasks_ok (s : session) (srv : server) (uid : str) :
  sess_user_id s = Some uid → uid ≠ [] →
  load_user_tasks s srv = inr (tasks_of uid srv).
Proof.
  intros Hu Hne. unfold load_user_tasks, get_user_tasks_file, get_current_user_id.
  rewrite Hu. by destruct uid.
Qed.

Lemma load_user_tasks_refused (s : session) (srv : server) :
  truthy_str (sess_user_id s) = false →
  load_user_tasks s srv = inl (Abort 401).
Proof.
  intros Hu. unfold load_user_tasks, get_user_tasks_file, get_current_user_id.
  by rewrite Hu.
Qed.

Lemma get_task_detail_served (id : N) (s : session) (srv : server) (d : task_detail) :
  (get_task_detail id s srv).1 = JsonTaskDetail d →
  ∃ uid, sess_user_id s = Some uid ∧ uid ≠ []
         ∧ truthy_bool (sess_dev_verified s) = true
         ∧ task_detail_loop (Z.of_N id) (tasks_of uid srv) = JsonTaskDetail d.
Proof.
  unfold get_task_detail, login_required.
  case_decide as Hu; [done|].
  destruct (truthy_bool (sess_dev_verified s)) eqn:Hv; cbn [negb]; [|done].
  destruct (sess_user_id s) as [[|c uid]|] eqn:Hs; [| |done].
  - by rewrite load_user_tasks_refused by (by rewrite Hs).
  - rewrite (load_user_tasks_ok s srv (c :: uid)) by done. cbn [fst].
    intros Hd. by exists (c :: uid).
Qed.

Lemma get_task_detail_open (id : N) (s : session) (srv : server) (uid : str) :
  sess_user_id s = Some uid → uid ≠ [] →
  truthy_bool (sess_dev_verified s) = true →
  get_task_detail id s srv = (task_detail_loop (Z.of_N id) (tasks_of uid srv), srv).
Proof.
  intros Hu Hne Hv. unfold get_task_detail, login_required.
  rewrite decide_False by congruence. rewrite Hv. cbn [negb].
  by rewrite (load_user_tasks_ok s srv uid).
Qed.

(** The tasks of each user after a save that succeeded. *)
Lemma tasks_of_saved (uid uid' : str) (tasks : list task) (σ : state)
    (files : gmap str (list task)) (audio : gmap str (list N)) :
  tasks_of uid'
    (mkServer σ
       (<[path_join TASKS_DIR (lit "tasks_" ++ uid ++ lit ".json") := tasks]> files)
       audio)
  = if decide (uid' = uid) then tasks
    else tasks_of uid' (mkServer σ files audio).
Proof.
  unfold tasks_of. cbn [task_files]. case_decide as Hu.
  - subst uid'. by rewrite lookup_insert_eq.
  - rewrite lookup_insert_ne; [done|]. intros Heq. by apply tasks_path_inj in Heq.
Qed.

Lemma translate_api_files (data : gmap string str) (s : session) (srv : server) :
  task_files (translate_api data s srv).2 = task_files srv
  ∧ audio_files (translate_api data s srv).2 = audio_files srv.
Proof.
  unfold translate_api, login_required.
  case_decide; [done|]. destruct (negb _); [done|].
  by destruct (translate_text_process _ _ _ _).
Qed.

Lemma lstrip_blank (t : str) :
  (∀ c, c ∈ t → isspace c = true) → lstrip t = [].
Proof.
  induction t as [|c t IH]; intros Hall; [done|]. cbn.
  rewrite (Hall c) by left. apply IH. intros c' Hc'. apply Hall. by right.
Qed.

(** X13.  A task detail that is served before a request to [save_session]
    is served unchanged after it, to every client and whoever saves. *)
Theorem served_details_survive_a_save (form : gmap string str)
    (audio_file : option upload) (now : str) (s : session) (srv : server)
    (id : N) (s2 : session) (d : task_detail) :
  (get_task_detail id s2 srv).1 = JsonTaskDetail d →
  (get_task_detail id s2 (save_session form audio_file now s srv).2).1
  = JsonTaskDetail d.
Proof.
  intros Hd.
  destruct (save_session_cases form audio_file now s srv)
    as [[-> _]|(uid & f & _ & _ & _ & _ & _ & _ & ->)]; [done|].
  destruct (get_task_detail_served id s2 srv d Hd) as (uid2 & Hu2 & Hne2 & Hv2 & Hloop).
  rewrite (get_task_detail_open id s2 _ uid2) by done. cbn [fst snd].
  rewrite tasks_of_saved. case_decide as Hu.
  - subst uid2. rewrite task_detail_loop_app, decide_True; [done|].
    destruct (decide (Z.of_N id ∈ task_id <$> tasks_of uid srv)) as [|Hout]; [done|].
    apply task_detail_loop_absent in Hout. congruence.
  - by destruct srv.
Qed.

(** X14.  A save that succeeds appends one task to the tasks of the client
    that saved, with the id after the greatest one there, and leaves the
    tasks of every other user and the state of the router as they were. *)
Theorem save_appends_for_its_user_only (form : gmap string str)
    (audio_file : option upload) (now : str) (s : session) (srv srv' : server)
    (name : str) :
  save_session form audio_file now s srv = (JsonSaved name, srv') →
  ∃ uid,
    sess_user_id s = Some uid
    ∧ tasks_of uid srv'
      = tasks_of uid srv ++ [new_task form now (next_id (tasks_of uid srv))]
    ∧ (∀ t, t ∈ tasks_of uid srv → (task_id t < next_id (tasks_of uid srv))%Z)
    ∧ (∀ uid', uid' ≠ uid → tasks_of uid' srv' = tasks_of uid' srv)
    ∧ router srv' = router srv.
Proof.
  intros Hsave.
  destruct (save_session_cases form audio_file now s srv)
    as [[_ Hno]|(uid & f & Hu & _ & _ & _ & _ & _ & Heq)].
  { rewrite Hsave in Hno. by destruct (Hno name). }
  rewrite Hsave in Heq. cbn zeta in Heq.
  apply (f_equal snd) in Heq. cbn [snd] in Heq. subst srv'.
  exists uid. split; [done|]. split; [|split; [|split]].
  - by rewrite tasks_of_saved, decide_True.
  - intros t Ht. unfold next_id.
    assert (task_id t ≤ py_max_default (task_id <$> tasks_of uid srv) 0)%Z; [|lia].
    apply py_max_default_ge, list_elem_of_fmap. by exists t.
  - intros uid' Hne. rewrite tasks_of_saved, decide_False by done. by destruct srv.
  - done.
Qed.

(** X15.  A request to [save_session] that is not answered with "saved"
    leaves the server as it was: no audio file and no task is written. *)
Theorem failed_save_changes_nothing (form : gmap string str)
    (audio_file : option upload) (now : str) (s : session) (srv : server) :
  (∀ name, (save_session form audio_file now s srv).1 ≠ JsonSaved name) →
  (save_session form audio_file now s srv).2 = srv.
Proof.
  intros Hno.
  destruct (save_session_cases form audio_file now s srv)
    as [[Hsame _]|(uid & f & _ & _ & _ & _ & _ & _ & Heq)]; [done|].
  cbn zeta in Heq. rewrite Heq in Hno.
  by destruct (Hno (saved_name form (next_id (tasks_of uid srv)))).
Qed.

(** X16.  On a running server every task of every user names the audio
    file of its id, and that file exists in the folder of the user. *)
Theorem listed_tasks_have_audio (srv : server) (uid : str) (t : task) :
  reachable_server srv →
  t ∈ tasks_of uid srv →
  task_audio t = session_file (task_id t)
  ∧ is_Some (audio_files srv !! audio_path_of uid (task_audio t)).
Proof.
  intros Hreach. revert uid t.
  induction Hreach as [|data s srv _ IH|form af now s srv _ IH]; intros uid t.
  - unfold tasks_of. cbn. rewrite lookup_empty. cbn. intros Ht.
    by apply elem_of_nil in Ht.
  - destruct (translate_api_files data s srv) as [Hf Ha].
    unfold tasks_of. rewrite Hf, Ha. apply IH.
  - destruct (save_session_cases form af now s srv)
      as [[-> _]|(uid0 & f & _ & _ & _ & _ & _ & _ & ->)]; [apply IH|].
    cbn [snd]. rewrite tasks_of_saved. cbn [audio_files].
    assert (∀ t', t' ∈ tasks_of uid srv →
              task_audio t' = session_file (task_id t')
              ∧ is_Some (<[audio_path_of uid0
                             (session_file (next_id (tasks_of uid0 srv)))
                           := content f]> (audio_files srv)
                         !! audio_path_of uid (task_audio t'))) as Hold.
    { intros t' Ht'. destruct (IH uid t' Ht') as [Hn Hs]. split; [done|].
      rewrite lookup_insert_is_Some.
      destruct (decide (audio_path_of uid0
                          (session_file (next_id (tasks_of uid0 srv)))
                        = audio_path_of uid (task_audio t'))); auto. }
    case_decide as Hu.
    + subst uid0. intros Ht. apply elem_of_app in Ht as [Ht|Ht]; [by apply Hold|].
      apply list_elem_of_singleton in Ht as ->. cbn. split; [done|].
      by rewrite lookup_insert_eq.
    + intros Ht. apply Hold. by destruct srv.
Qed.

(** X17.  A verified session whose user id is the empty string passes the
    gate, and every page of the task store refuses it with 401, leaving
    the server as it was. *)
Theorem empty_user_id_is_refused (s : session) (srv : server) (id : N)
    (form : gmap string str) (f : upload) (now : str) :
  sess_user_id s = Some [] →
  truthy_bool (sess_dev_verified s) = true →
  index s srv = (RenderIndex (default None (sess_email s)), srv)
  ∧ get_tasks s srv = (Abort 401, srv)
  ∧ get_task_detail id s srv = (Abort 401, srv)
  ∧ (filename f ≠ [] → content_length f ≠ 0%Z →
     save_session form (Some f) now s srv = (Abort 401, srv)).
Proof.
  intros Hu Hv.
  unfold index, get_tasks, get_task_detail, save_session, login_required.
  rewrite !decide_False by congruence. rewrite Hv. cbn [negb].
  rewrite !load_user_tasks_refused by (by rewrite Hu).
  split; [done|]. split; [done|]. split; [done|].
  intros Hf Hl. by rewrite !decide_False by done.
Qed.

(** X18.  For a verified session with a user id, the task detail page
    answers 404 exactly when no task of the user has the id, the task list
    page answers with the user's tasks, and neither changes the server. *)
Theorem task_detail_404_iff_absent (s : session) (srv : server) (uid : str)
    (id : N) :
  sess_user_id s = Some uid → uid ≠ [] →
  truthy_bool (sess_dev_verified s) = true →
  ((get_task_detail id s srv).1 = Abort 404
   ↔ Z.of_N id ∉ task_id <$> tasks_of uid srv)
  ∧ (get_task_detail id s srv).2 = srv
  ∧ get_tasks s srv = (JsonTasks (tasks_of uid srv), srv).
Proof.
  intros Hu Hne Hv. rewrite (get_task_detail_open id s srv uid) by done.
  cbn [fst snd]. split; [apply task_detail_loop_absent|]. split; [done|].
  unfold get_tasks, login_required.
  rewrite decide_False by congruence. rewrite Hv. cbn [negb].
  by rewrite (load_user_tasks_ok s srv uid).
Qed.

Lemma saved_name_on_running_server (form : gmap string str)
    (audio_file : option upload) (now : str) (s : session) (srv srv' : server)
    (name : str) :
  reachable_server srv →
  save_session form audio_file now s srv = (JsonSaved name, srv') →
  ∃ uid, sess_user_id s = Some uid
         ∧ name = saved_name form (Z.of_nat (S (length (tasks_of uid srv)))).
Proof.
  intros Hreach Hsave.
  destruct (save_session_cases form audio_file now s srv)
    as [[_ Hno]|(uid & f & Hu & _ & _ & _ & _ & _ & Heq)].
  { rewrite Hsave in Hno. by destruct (Hno name). }
  rewrite Hsave in Heq. cbn zeta in Heq.
  apply (f_equal fst) in Heq. cbn [fst] in Heq.
  assert (name = saved_name form (next_id (tasks_of uid srv))) as ->
    by congruence.
  exists uid. split; [done|]. f_equal.
  rewrite numbered_next_id; [lia|]. unfold tasks_of.
  destruct (task_files srv !! _) as [old|] eqn:Hold; cbn;
    [by eapply reachable_server_numbered|].
  intros i t Hi. by rewrite lookup_nil in Hi.
Qed.

(** X19.  On a running server, a save that succeeds with a name field that
    is missing or made of whitespace names the task with the two
    characters U+8A9E U+97F3 followed by the new id, which is one above
    the number of the user's earlier tasks, padded with zeros to three
    digits. *)
Theorem blank_name_gets_the_automatic_name (form : gmap string str)
    (audio_file : option upload) (now : str) (s : session) (srv srv' : server)
    (name : str) :
  reachable_server srv →
  save_session form audio_file now s srv = (JsonSaved name, srv') →
  (∀ c, c ∈ field "name" form → isspace c = true) →
  ∃ uid, sess_user_id s = Some uid
         ∧ let n := S (length (tasks_of uid srv)) in
           name = [0x8a9e; 0x97f3]%N
                  ++ replicate (3 - length (py_str_int (Z.of_nat n))) 0x30%N
                  ++ py_str_int (Z.of_nat n).
Proof.
  intros Hreach Hsave Hblank.
  destruct (saved_name_on_running_server form audio_file now s srv srv' name Hreach Hsave)
    as (uid & Hu & Hname).
  exists uid. split; [done|]. cbn zeta. rewrite Hname.
  unfold saved_name, strip. rewrite (lstrip_blank _ Hblank). cbn [reverse lstrip].
  rewrite decide_True by done. unfold auto_name, format_03d, zero_pad, py_str_int.
  by rewrite (proj2 (Z.ltb_ge _ _)) by lia.
Qed.


End HandlerProofs.

(** ** The theorems at work on the sample site *)

Definition alice : session :=
  mkSession (Some (lit "u1")) (Some (Some (lit "a@example.org"))) (Some None)
            (Some true).

Definition clip : upload := mkUpload (lit "clip.webm") 3 [1; 2; 3]%N.

Definition noon : str := lit "2024-01-01 12:00:00".

(** The server after one save by [alice], with no name given. *)
Definition one_saved : server :=
  (save_session (site := sample_site)
     ∅ (Some clip) noon alice init_server).2.

Lemma one_saved_reachable :
  reachable_server (B := marking_backend) (site := sample_site) one_saved.
Proof. apply reachable_save. constructor. Qed.

Lemma alice_reachable :
  reachable_session (site := sample_site) alice.
Proof.
  pose proof (reachable_session_step (site := sample_site) _ _
                (reachable_session_step _ _ reachable_session_empty
                   (step_auth_callback
                      (Some (mkUserinfo (lit "u1") (Some (lit "a@example.org")) None))
                      (mkUserinfo [] None None) empty_session))
                (step_verify_dev POST {["password" := lit "s3cret"]} _)) as H.
  exact H.
Qed.

Lemma gate_opens_on_the_verified_flag_witness :
  reachable_session (site := sample_site) alice
  ∧ index alice init_server
    = (RenderIndex (Some (lit "a@example.org")), init_server).
Proof.
  split; [exact alice_reachable|].
  exact (proj1 (@gate_opens_on_the_verified_flag sample_site alice _ init_server
                  alice_reachable) eq_refl).
Defined.

Lemma only_the_password_verifies_witness :
  let s := mkSession (Some (lit "u1")) (Some None) (Some None) (Some false) in
  let s' := (verify_dev (site := sample_site) POST
               {["password" := lit "s3cret"]} s).2 in
  session_step (site := sample_site) s s'
  ∧ truthy_bool (sess_dev_verified s) = false
  ∧ truthy_bool (sess_dev_verified s') = true
  ∧ sess_user_id s' = sess_user_id s.
Proof.
  intros s s'.
  assert (session_step (site := sample_site) s s') as Hstep by apply step_verify_dev.
  split; [exact Hstep|]. split; [reflexivity|]. split; [reflexivity|].
  exact (proj1 (proj2 (@only_the_password_verifies sample_site s s' Hstep
                         eq_refl eq_refl))).
Defined.

Lemma logout_needs_a_new_login_witness :
  let s' := (verify_dev (site := sample_site) POST
               {["password" := lit "s3cret"]} (logout alice).2).2 in
  rtc (λ a b, ∃ meth form, b = (verify_dev (site := sample_site) meth form a).2)
      (logout alice).2 s'
  ∧ s' = empty_session.
Proof.
  intros s'.
  assert (rtc (λ a b, ∃ meth form,
                 b = (verify_dev (site := sample_site) meth form a).2)
              (logout alice).2 s') as Hposts.
  { eapply rtc_l; [|apply rtc_refl].
    by exists POST, {["password" := lit "s3cret"]}. }
  split; [exact Hposts|].
  exact (proj1 (@logout_needs_a_new_login sample_site alice s'
                  (λ _ srv, (Abort 404, srv)) init_server Hposts)).
Defined.

Lemma translate_api_answers_like_a_fresh_router_witness :
  reachable_server (B := marking_backend) (site := sample_site) one_saved
  ∧ is_Some (sess_user_id alice)
  ∧ truthy_bool (sess_dev_verified alice) = true
  ∧ (translate_api (B := marking_backend) {["text" := lit "a"]} alice one_saved).1
    = JsonTranslated
        (translate_text_process (B := marking_backend)
           (lit "a") (lit "auto") (lit "zh-TW") init_state).1.
Proof.
  assert (is_Some (sess_user_id alice)) as Hu by (by eexists).
  split; [exact one_saved_reachable|]. split; [exact Hu|]. split; [reflexivity|].
  pose proof (@translate_api_answers_like_a_fresh_router marking_backend sample_site
                {["text" := lit "a"]} alice one_saved one_saved_reachable Hu eq_refl)
    as H.
  cbn zeta in H.
  destruct (translate_api {["text" := lit "a"]} alice one_saved) as [r srv'].
  exact (proj1 H).
Defined.

Lemma task_ids_count_from_one_witness :
  let path := lit "/app/tasks/tasks_u1.json" in
  let tasks := tasks_of (site := sample_site) (lit "u1") one_saved in
  reachable_server (B := marking_backend) (site := sample_site) one_saved
  ∧ task_files one_saved !! path = Some tasks
  ∧ NoDup (task_id <$> tasks).
Proof.
  intros path tasks.
  assert (task_files one_saved !! path = Some tasks) as Hp
    by (vm_compute; reflexivity).
  split; [exact one_saved_reachable|]. split; [exact Hp|].
  exact (proj2 (@task_ids_count_from_one marking_backend sample_site
                  one_saved path tasks one_saved_reachable Hp)).
Defined.

Lemma saved_task_is_served_witness :
  let name := [0x8a9e; 0x97f3]%N ++ lit "001" in
  reachable_server (B := marking_backend) (site := sample_site) init_server
  ∧ save_session (site := sample_site)
      ∅ (Some clip) noon alice init_server
    = (JsonSaved name, one_saved)
  ∧ ∃ uid f, sess_user_id alice = Some uid ∧ Some clip = Some f.
Proof.
  intros name.
  assert (save_session (site := sample_site)
            ∅ (Some clip) noon alice init_server
          = (JsonSaved name, one_saved)) as Hsave by (vm_compute; reflexivity).
  split; [constructor|]. split; [exact Hsave|].
  destruct (@saved_task_is_served marking_backend sample_site
              ∅ (Some clip) noon alice init_server one_saved name
              reachable_server_init Hsave) as (uid & f & Hu & Hf & _).
  by exists uid, f.
Defined.

Lemma served_details_survive_a_save_witness :
  let d := mkDetail 1 ([0x8a9e; 0x97f3]%N ++ lit "001") [] [] noon
             (lit "/audio/session_1.webm") in
  (get_task_detail (site := sample_site)
     1 alice one_saved).1 = JsonTaskDetail d
  ∧ (get_task_detail (site := sample_site) 1 alice
       (save_session (site := sample_site)
          ∅ (Some clip) noon alice one_saved).2).1
    = JsonTaskDetail d.
Proof.
  intros d.
  assert ((get_task_detail (site := sample_site)
             1 alice one_saved).1 = JsonTaskDetail d) as Hd
    by (vm_compute; reflexivity).
  split; [exact Hd|].
  exact (@served_details_survive_a_save sample_site
           ∅ (Some clip) noon alice one_saved 1%N alice d Hd).
Defined.

Lemma save_appends_for_its_user_only_witness :
  let name := [0x8a9e; 0x97f3]%N ++ lit "001" in
  save_session (site := sample_site)
    ∅ (Some clip) noon alice init_server
  = (JsonSaved name, one_saved)
  ∧ router one_saved = router init_server.
Proof.
  intros name.
  assert (save_session (site := sample_site)
            ∅ (Some clip) noon alice init_server
          = (JsonSaved name, one_saved)) as Hsave by (vm_compute; reflexivity).
  split; [exact Hsave|].
  destruct (@save_appends_for_its_user_only sample_site
              ∅ (Some clip) noon alice init_server one_saved name Hsave)
    as (uid & _ & _ & _ & _ & Hr).
  exact Hr.
Defined.

Lemma failed_save_changes_nothing_witness :
  (∀ name, (save_session (site := sample_site)
              ∅ None noon alice one_saved).1 ≠ JsonSaved name)
  ∧ (save_session (site := sample_site)
       ∅ None noon alice one_saved).2 = one_saved.
Proof.
  assert (∀ name, (save_session (site := sample_site)
                     ∅ None noon alice one_saved).1 ≠ JsonSaved name) as Hno
    by (intros name; discriminate).
  split; [exact Hno|].
  exact (@failed_save_changes_nothing sample_site
           ∅ None noon alice one_saved Hno).
Defined.

Lemma listed_tasks_have_audio_witness :
  let t := new_task (site := sample_site) ∅ noon 1 in
  reachable_server (B := marking_backend) (site := sample_site) one_saved
  ∧ t ∈ tasks_of (site := sample_site) (lit "u1") one_saved
  ∧ is_Some (audio_files one_saved
               !! audio_path_of (site := sample_site) (lit "u1") (task_audio t)).
Proof.
  intros t.
  assert (t ∈ tasks_of (site := sample_site) (lit "u1") one_saved) as Ht.
  { replace (tasks_of (site := sample_site) (lit "u1") one_saved) with [t]
      by (vm_compute; reflexivity). left. }
  split; [exact one_saved_reachable|]. split; [exact Ht|].
  exact (proj2 (@listed_tasks_have_audio marking_backend sample_site
                  one_saved (lit "u1") t one_saved_reachable Ht)).
Defined.

Lemma empty_user_id_is_refused_witness :
  let s := mkSession (Some []) (Some None) (Some None) (Some true) in
  sess_user_id s = Some []
  ∧ truthy_bool (sess_dev_verified s) = true
  ∧ get_tasks (site := sample_site) s one_saved
    = (Abort 401, one_saved).
Proof.
  intros s. split; [reflexivity|]. split; [reflexivity|].
  exact (proj1 (proj2 (@empty_user_id_is_refused sample_site
                         s one_saved 1%N ∅ clip noon eq_refl eq_refl))).
Defined.

Lemma task_detail_404_iff_absent_witness :
  sess_user_id alice = Some (lit "u1")
  ∧ lit "u1" ≠ []
  ∧ truthy_bool (sess_dev_verified alice) = true
  ∧ (get_task_detail (site := sample_site)
       2 alice one_saved).2 = one_saved.
Proof.
  assert (lit "u1" ≠ []) as Hne by discriminate.
  split; [reflexivity|]. split; [exact Hne|]. split; [reflexivity|].
  exact (proj1 (proj2 (@task_detail_404_iff_absent sample_site
                         alice one_saved (lit "u1") 2%N eq_refl Hne eq_refl))).
Defined.

Lemma blank_name_gets_the_automatic_name_witness :
  let form : gmap string str := {["name" := lit "  "]} in
  let name := [0x8a9e; 0x97f3]%N ++ lit "002" in
  let srv' := (save_session (site := sample_site)
                 form (Some clip) noon alice one_saved).2 in
  reachable_server (B := marking_backend) (site := sample_site) one_saved
  ∧ save_session (site := sample_site)
      form (Some clip) noon alice one_saved
    = (JsonSaved name, srv')
  ∧ (∀ c, c ∈ field "name" form → isspace (Site := sample_site) c = true)
  ∧ ∃ uid, sess_user_id alice = Some uid.
Proof.
  intros form name srv'.
  assert (save_session (site := sample_site)
            form (Some clip) noon alice one_saved
          = (JsonSaved name, srv')) as Hsave by (vm_compute; reflexivity).
  assert (∀ c, c ∈ field "name" form → isspace (Site := sample_site) c = true)
    as Hblank.
  { intros c Hc.
    replace (field "name" form) with [0x20; 0x20]%N in Hc by (vm_compute; reflexivity).
    apply elem_of_cons in Hc as [->|Hc]; [reflexivity|].
    apply elem_of_cons in Hc as [->|Hc]; [reflexivity|].
    by apply elem_of_nil in Hc. }
  split; [exact one_saved_reachable|]. split; [exact Hsave|]. split; [exact Hblank|].
  destruct (@blank_name_gets_the_automatic_name marking_backend sample_site
              form (Some clip) noon alice one_saved srv' name
              one_saved_reachable Hsave Hblank) as (uid & Hu & _).
  by exists uid.
Defined.

End Portal.

Lemma detect_lang_zh_needs_unlettered_ideograph_witness :
  (∀ c, c ∈ lit "hello" → ¬ (0x4e00 ≤ c ≤ 0x9fff)%N)
  ∧ detect_lang (B := marking_backend) (lit "hello") = lit "en".
Proof.
  assert (∀ c, c ∈ lit "hello" → ¬ (0x4e00 ≤ c ≤ 0x9fff)%N) as Hnone.
  { apply Forall_forall. apply (bool_decide_eq_true_1 _). vm_compute. reflexivity. }
  split; [exact Hnone|].
  exact (proj2 (@detect_lang_zh_needs_unlettered_ideograph marking_backend
                  (lit "hello")) Hnone).
Defined.
